(** * Graphical-password authentication (accounts/views.py, accounts/models.py)

    A shallow embedding of the Django views of the [accounts] application:
    the salted SHA-256 digest of the submitted image sequence, the
    registration and login views with the store they read and write, and the
    theorems that relate them to the specification of the repository.

    Python values are modelled as follows.
    - A [str] is the list of its Unicode code points (integers); a [bytes]
      value is the list of its octets. [str.encode()] is UTF-8 and fails on a
      lone surrogate.
    - [hashlib.sha256] is SHA-256 as FIPS 180-4 defines it, on 32-bit words
      kept as integers modulo 2^32.
    - The relational store is a pair of tables (lists of rows) with the
      uniqueness constraints of the models; a write can fail, as scheduled
      by the world.
    - A view is a computation over the [World] (store, session, message
      queue, operating-system randomness) that either returns a response or
      raises a Python exception.
    - What Django contributes as functions of its own (e-mail validation,
      username and e-mail normalisation, password hashing) is the class
      [Framework]; module [Sample] is one instance, used to evaluate.

    Layout: the embedding ([Py], [SHA256], [Django], [Views], [Sample]), the
    notions the theorems are stated with ([Steps], [Bits], [Statements],
    [Coverage]), then the proofs ([PyFacts], [SHA256Facts], [ViewFacts],
    [Counting], [DigestBits]), the specification, claim by claim ([Spec]),
    and further properties of the code ([Further]). *)

From Stdlib Require Import String Ascii.
From Stdlib Require Import ZArith List Bool Lia Permutation FinFun.
Import ListNotations.
Local Open Scope Z_scope.

(* ================================================================== *)
(** ** Python strings and bytes *)
(* ================================================================== *)

Module Py.

(** A Python [str]: the sequence of its code points. *)
Definition str := list Z.

(** A Python [bytes]: the sequence of its octets. *)
Definition bytes := list Z.

(** The code points of an ASCII literal of the source. *)
Definition lit (s : string) : str :=
  map (fun a => Z.of_N (N_of_ascii a)) (list_ascii_of_string s).

Arguments lit s%_string.

Definition str_eq_dec : forall a b : str, {a = b} + {a <> b} :=
  list_eq_dec Z.eq_dec.

Definition str_eqb (a b : str) : bool :=
  if str_eq_dec a b then true else false.

(** Truth value of a string: [not s] holds exactly for the empty string. *)
Definition truthy (s : str) : bool :=
  match s with [] => false | _ :: _ => true end.

(** A code point that [str.encode()] accepts: a Unicode scalar value. *)
Definition scalar (c : Z) : bool :=
  (0 <=? c) && (c <=? 1114111) && negb ((55296 <=? c) && (c <=? 57343)).

(** UTF-8 encoding of one code point; [None] is [UnicodeEncodeError]
    (a lone surrogate). *)
Definition utf8_char (c : Z) : option bytes :=
  if negb (scalar c) then None
  else if c <? 128 then Some [c]
  else if c <? 2048 then
    Some [Z.lor 192 (Z.shiftr c 6); Z.lor 128 (Z.land c 63)]
  else if c <? 65536 then
    Some [Z.lor 224 (Z.shiftr c 12);
          Z.lor 128 (Z.land (Z.shiftr c 6) 63);
          Z.lor 128 (Z.land c 63)]
  else
    Some [Z.lor 240 (Z.shiftr c 18);
          Z.lor 128 (Z.land (Z.shiftr c 12) 63);
          Z.lor 128 (Z.land (Z.shiftr c 6) 63);
          Z.lor 128 (Z.land c 63)].

(** [s.encode()] with the default codec (UTF-8, strict). *)
Fixpoint encode (s : str) : option bytes :=
  match s with
  | [] => Some []
  | c :: s' =>
      match utf8_char c, encode s' with
      | Some b, Some bs => Some (b ++ bs)
      | _, _ => None
      end
  end.

(** One lowercase hexadecimal digit, as a code point. *)
Definition hexchar (d : Z) : Z := if d <? 10 then 48 + d else 87 + d.

(** [bytes.hex()] / [binascii.hexlify]: two lowercase digits per octet. *)
Fixpoint hex (b : bytes) : str :=
  match b with
  | [] => []
  | x :: b' => hexchar (x / 16) :: hexchar (x mod 16) :: hex b'
  end.

(** A lowercase hexadecimal digit: [0-9a-f]. *)
Definition is_lower_hex (c : Z) : bool :=
  ((48 <=? c) && (c <=? 57)) || ((97 <=? c) && (c <=? 102)).

(** [s.split(',')]: the fields between the commas, in order; the empty
    string has one (empty) field. *)
Fixpoint split_comma (s : str) : list str :=
  match s with
  | [] => [[]]
  | c :: s' =>
      if c =? 44 then [] :: split_comma s'
      else match split_comma s' with
           | f :: fs => (c :: f) :: fs
           | [] => [[c]]
           end
  end.

(** [','.join(tokens)]. *)
Fixpoint join_comma (tokens : list str) : str :=
  match tokens with
  | [] => []
  | [t] => t
  | t :: ts => t ++ 44 :: join_comma ts
  end.

Definition octet (x : Z) : Prop := 0 <= x < 256.

Definition commas (s : str) : nat := count_occ Z.eq_dec s 44.

Definition comma_free (t : str) : Prop := ~ In 44 t.

(** The encoding of one code point, in arithmetic. *)
Definition utf8_arith (c : Z) : bytes :=
  if c <? 128 then [c]
  else if c <? 2048 then [192 + c / 64; 128 + c mod 64]
  else if c <? 65536 then
    [224 + c / 4096; 128 + (c / 64) mod 64; 128 + c mod 64]
  else
    [240 + c / 262144; 128 + (c / 4096) mod 64; 128 + (c / 64) mod 64;
     128 + c mod 64].

End Py.

(* ================================================================== *)
(** ** SHA-256 (FIPS 180-4), the function behind [hashlib.sha256] *)
(* ================================================================== *)

Module SHA256.

Definition w32 (x : Z) : Z := x mod 4294967296.
Definition add32 (a b : Z) : Z := w32 (a + b).
Definition rotr (n x : Z) : Z :=
  w32 (Z.lor (Z.shiftr x n) (Z.shiftl x (32 - n))).
Definition shr (n x : Z) : Z := Z.shiftr x n.
Definition not32 (x : Z) : Z := Z.lxor x 4294967295.

Definition Ch (x y z : Z) : Z := Z.lxor (Z.land x y) (Z.land (not32 x) z).
Definition Maj (x y z : Z) : Z :=
  Z.lxor (Z.lxor (Z.land x y) (Z.land x z)) (Z.land y z).
Definition Sigma0 (x : Z) : Z :=
  Z.lxor (Z.lxor (rotr 2 x) (rotr 13 x)) (rotr 22 x).
Definition Sigma1 (x : Z) : Z :=
  Z.lxor (Z.lxor (rotr 6 x) (rotr 11 x)) (rotr 25 x).
Definition sigma0 (x : Z) : Z :=
  Z.lxor (Z.lxor (rotr 7 x) (rotr 18 x)) (shr 3 x).
Definition sigma1 (x : Z) : Z :=
  Z.lxor (Z.lxor (rotr 17 x) (rotr 19 x)) (shr 10 x).

(** The round constants K_0 .. K_63 (FIPS 180-4, section 4.2.2). *)
Definition K : list Z :=
   1116352408 :: 1899447441 :: 3049323471 :: 3921009573 ::
   961987163 :: 1508970993 :: 2453635748 :: 2870763221 ::
   3624381080 :: 310598401 :: 607225278 :: 1426881987 ::
   1925078388 :: 2162078206 :: 2614888103 :: 3248222580 ::
   3835390401 :: 4022224774 :: 264347078 :: 604807628 ::
   770255983 :: 1249150122 :: 1555081692 :: 1996064986 ::
   2554220882 :: 2821834349 :: 2952996808 :: 3210313671 ::
   3336571891 :: 3584528711 :: 113926993 :: 338241895 ::
   666307205 :: 773529912 :: 1294757372 :: 1396182291 ::
   1695183700 :: 1986661051 :: 2177026350 :: 2456956037 ::
   2730485921 :: 2820302411 :: 3259730800 :: 3345764771 ::
   3516065817 :: 3600352804 :: 4094571909 :: 275423344 ::
   430227734 :: 506948616 :: 659060556 :: 883997877 ::
   958139571 :: 1322822218 :: 1537002063 :: 1747873779 ::
   1955562222 :: 2024104815 :: 2227730452 :: 2361852424 ::
   2428436474 :: 2756734187 :: 3204031479 :: 3329325298 ::
   nil.

(** Big-endian octets of [x], [n] of them. *)
Fixpoint be_bytes (n : nat) (x : Z) : list Z :=
  match n with
  | O => []
  | S n' => (Z.shiftr x (8 * Z.of_nat n')) mod 256 :: be_bytes n' x
  end.

(** Padding: the bit 1, zeros up to 56 modulo 64, the bit length on 64 bits. *)
Definition pad (msg : list Z) : list Z :=
  let l := Z.of_nat (length msg) in
  msg ++ [128] ++ repeat 0 (Z.to_nat ((55 - l) mod 64)) ++ be_bytes 8 (8 * l).

(** The big-endian 32-bit words of a list of octets. *)
Fixpoint words (n : nat) (b : list Z) : list Z :=
  match n with
  | O => []
  | S n' =>
      (nth 0 b 0 * 16777216 + nth 1 b 0 * 65536 + nth 2 b 0 * 256 + nth 3 b 0)
      :: words n' (skipn 4 b)
  end.

(** Message schedule, most recent word first: [rev] of W_0..W_{t-1}. *)
Fixpoint schedule (n : nat) (w : list Z) : list Z :=
  match n with
  | O => w
  | S n' =>
      schedule n'
        (add32 (add32 (sigma1 (nth 1 w 0)) (nth 6 w 0))
               (add32 (sigma0 (nth 14 w 0)) (nth 15 w 0)) :: w)
  end.

Record regs := Regs { ra : Z; rb : Z; rc : Z; rd : Z;
                      re : Z; rf : Z; rg : Z; rh : Z }.

Definition round (s : regs) (kw : Z * Z) : regs :=
  let '(k, w) := kw in
  let t1 := add32 (add32 (add32 (rh s) (Sigma1 (re s)))
                         (add32 (Ch (re s) (rf s) (rg s)) k)) w in
  let t2 := add32 (Sigma0 (ra s)) (Maj (ra s) (rb s) (rc s)) in
  Regs (add32 t1 t2) (ra s) (rb s) (rc s) (add32 (rd s) t1) (re s) (rf s) (rg s).

(** One application of the compression function to a 64-octet block. *)
Definition compress (h : regs) (block : list Z) : regs :=
  let w := rev (schedule 48 (rev (words 16 block))) in
  let s := fold_left round (combine K w) h in
  Regs (add32 (ra h) (ra s)) (add32 (rb h) (rb s))
       (add32 (rc h) (rc s)) (add32 (rd h) (rd s))
       (add32 (re h) (re s)) (add32 (rf h) (rf s))
       (add32 (rg h) (rg s)) (add32 (rh h) (rh s)).

(** The initial hash value H(0) (FIPS 180-4, section 5.3.3). *)
Definition init : regs :=
  Regs 1779033703 3144134277 1013904242 2773480762
       1359893119 2600822924 528734635 1541459225.

(** The blocks of a padded message, folded through [compress]. *)
Fixpoint blocks (n : nat) (h : regs) (b : list Z) : regs :=
  match n with
  | O => h
  | S n' => blocks n' (compress h (firstn 64 b)) (skipn 64 b)
  end.

Definition state (msg : list Z) : regs :=
  let p := pad msg in blocks (length p / 64) init p.

Definition regs_words (s : regs) : list Z :=
  [ra s; rb s; rc s; rd s; re s; rf s; rg s; rh s].

(** [hashlib.sha256(msg).digest()]: 32 octets. *)
Definition digest (msg : list Z) : list Z :=
  flat_map (be_bytes 4) (regs_words (state msg)).

(** [hashlib.sha256(msg).hexdigest()]. *)
Definition hexdigest (msg : list Z) : Py.str := Py.hex (digest msg).

End SHA256.

(* ================================================================== *)
(** ** The part of Django the views run on *)
(* ================================================================== *)

Module Django.
Import Py.

(** The exceptions a view of this application can raise. *)
Inductive exn :=
| MultiValueDictKeyError (key : str)   (* request.POST[key], key absent *)
| ValueError                           (* create_user with an empty username *)
| IntegrityError                       (* a uniqueness constraint of the store *)
| DatabaseError                        (* the store failed to execute a write *)
| MultipleObjectsReturned              (* Model.objects.get found several rows *)
| UnicodeEncodeError                   (* str.encode() met a lone surrogate *)
| NoReverseMatch.                      (* redirect() to an unknown name *)

(** django.contrib.auth.models.User, the columns this application touches. *)
Record User := mkUser {
  user_id : Z;
  username : str;
  email : str;
  password : str;            (* the encoded password, never the raw one *)
  is_active : bool;
  last_login : option Z }.

(** accounts.models.GraphicalPassword. *)
Record GraphicalPassword := mkGraphicalPassword {
  gp_id : Z;
  gp_user : Z;               (* OneToOneField(User): the owner's primary key *)
  image_sequence_hash : str; (* CharField(max_length=128) *)
  salt : str;                (* CharField(max_length=32) *)
  created_at : Z;            (* auto_now_add *)
  updated_at : Z }.          (* auto_now *)

Inductive Level := INFO | SUCCESS | ERROR.

(** Everything a request can read or change.
    - [entropy] is the operating system's random source: [entropy k] is the
      k-th octet it delivers, [entropy_pos] the number already consumed.
    - [db_faults] schedules the outcome of the coming writes to the store:
      [true] makes the next write raise [DatabaseError]; the empty schedule
      is a store that executes every write. *)
Record World := mkWorld {
  users : list User;
  graphical_passwords : list GraphicalPassword;
  next_user_id : Z;
  next_gp_id : Z;
  session : option Z;        (* primary key of the logged-in user *)
  messages : list (Level * str);
  entropy : nat -> Z;
  entropy_pos : nat;
  db_faults : list bool;
  clock : Z }.

Definition set_users (us : list User) (w : World) : World :=
  mkWorld us (graphical_passwords w) (next_user_id w) (next_gp_id w)
          (session w) (messages w) (entropy w) (entropy_pos w)
          (db_faults w) (clock w).
Definition set_graphical_passwords (gs : list GraphicalPassword) (w : World)
  : World :=
  mkWorld (users w) gs (next_user_id w) (next_gp_id w)
          (session w) (messages w) (entropy w) (entropy_pos w)
          (db_faults w) (clock w).
Definition set_next_user_id (n : Z) (w : World) : World :=
  mkWorld (users w) (graphical_passwords w) n (next_gp_id w)
          (session w) (messages w) (entropy w) (entropy_pos w)
          (db_faults w) (clock w).
Definition set_next_gp_id (n : Z) (w : World) : World :=
  mkWorld (users w) (graphical_passwords w) (next_user_id w) n
          (session w) (messages w) (entropy w) (entropy_pos w)
          (db_faults w) (clock w).
Definition set_session (s : option Z) (w : World) : World :=
  mkWorld (users w) (graphical_passwords w) (next_user_id w) (next_gp_id w)
          s (messages w) (entropy w) (entropy_pos w)
          (db_faults w) (clock w).
Definition set_messages (ms : list (Level * str)) (w : World) : World :=
  mkWorld (users w) (graphical_passwords w) (next_user_id w) (next_gp_id w)
          (session w) ms (entropy w) (entropy_pos w)
          (db_faults w) (clock w).
Definition set_entropy_pos (n : nat) (w : World) : World :=
  mkWorld (users w) (graphical_passwords w) (next_user_id w) (next_gp_id w)
          (session w) (messages w) (entropy w) n
          (db_faults w) (clock w).
Definition set_db_faults (fs : list bool) (w : World) : World :=
  mkWorld (users w) (graphical_passwords w) (next_user_id w) (next_gp_id w)
          (session w) (messages w) (entropy w) (entropy_pos w)
          fs (clock w).

(** *** Computations: state and exceptions *)

Inductive result (A : Type) :=
| Return (a : A) (w : World)
| Raise (e : exn) (w : World).
Arguments Return {A} a w.
Arguments Raise {A} e w.

Definition M (A : Type) := World -> result A.

Definition ret {A} (a : A) : M A := fun w => Return a w.
Definition raise {A} (e : exn) : M A := fun w => Raise e w.
Definition bind {A B} (m : M A) (k : A -> M B) : M B :=
  fun w => match m w with
           | Return a w' => k a w'
           | Raise e w' => Raise e w'
           end.
Definition gets {A} (f : World -> A) : M A := fun w => Return (f w) w.
Definition modify (f : World -> World) : M unit := fun w => Return tt (f w).

Notation "x <- m ;; k" := (bind m (fun x => k))
  (at level 61, m at next level, right associativity).
Notation "m ;; k" := (bind m (fun _ => k))
  (at level 61, right associativity).

(** The world a computation ends in, whatever its outcome. *)
Definition world_of {A} (r : result A) : World :=
  match r with Return _ w => w | Raise _ w => w end.

(** *** Requests and responses *)

(** request.POST: the submitted (key, value) pairs in order; a key given
    several times answers with its last value. *)
Definition QueryDict := list (str * str).

Fixpoint lookup (key : str) (q : QueryDict) : option str :=
  match q with
  | [] => None
  | (k, v) :: q' =>
      match lookup key q' with
      | Some v' => Some v'
      | None => if str_eqb k key then Some v else None
      end
  end.

(** A request: its method, its form data, and [request.get_full_path()],
    the path with the query string behind a question mark. The framework
    has escaped both (escape_uri_path, iri_to_uri): the full path is an
    ASCII string. *)
Record HttpRequest := mkRequest {
  method : str;
  POST : QueryDict;
  full_path : string }.

Arguments mkRequest method POST full_path%_string.

(** request.POST[key] *)
Definition POST_getitem (request : HttpRequest) (key : str) : M str :=
  match lookup key (POST request) with
  | Some v => ret v
  | None => raise (MultiValueDictKeyError key)
  end.

(** request.POST.get(key, default) *)
Definition POST_get (request : HttpRequest) (key default : str) : str :=
  match lookup key (POST request) with
  | Some v => v
  | None => default
  end.

Inductive HttpResponse :=
| HttpResponseRender (template : str) (context : list (str * list str))
| HttpResponseRedirect (url : str).

Definition render (template : str) (context : list (str * list str))
  : M HttpResponse := ret (HttpResponseRender template context).

(** accounts/urls.py: route and name of each pattern (mounted at the root). *)
Definition urlpatterns : list (str * str) :=
  [ (lit "", lit "index");
    (lit "register", lit "register");
    (lit "login", lit "login");
    (lit "logout", lit "logout");
    (lit "about", lit "about");
    (lit "team", lit "team") ].

Definition reverse (name : str) : option str :=
  match find (fun p => str_eqb (snd p) name) urlpatterns with
  | Some (route, _) => Some (47 :: route)
  | None => None
  end.

(** django.shortcuts.redirect: a pattern name is reversed; anything else
    that holds a slash or a dot is taken as the URL itself. *)
Definition redirect (to : str) : M HttpResponse :=
  match reverse to with
  | Some url => ret (HttpResponseRedirect url)
  | None =>
      if existsb (fun c => (c =? 47) || (c =? 46)) to
      then ret (HttpResponseRedirect to)
      else raise NoReverseMatch
  end.

(** django.contrib.messages *)
Definition messages_add (l : Level) (text : str) : M unit :=
  modify (fun w => set_messages (messages w ++ [(l, text)]) w).
Definition messages_error := messages_add ERROR.
Definition messages_success := messages_add SUCCESS.
Definition messages_info := messages_add INFO.

(** *** The store *)

(** One write (INSERT or UPDATE) reaches the store: it consumes the next
    entry of the fault schedule and raises when that entry is [true]. *)
Definition db_write : M unit :=
  fun w =>
    let w' := set_db_faults (tl (db_faults w)) w in
    if hd false (db_faults w) then Raise DatabaseError w' else Return tt w'.

(** User.objects.filter(username=...).exists() *)
Definition User_username_exists (name : str) : M bool :=
  gets (fun w => existsb (fun u => str_eqb (username u) name) (users w)).

(** User.objects.filter(email=...).exists() *)
Definition User_email_exists (mail : str) : M bool :=
  gets (fun w => existsb (fun u => str_eqb (email u) mail) (users w)).

(** What the framework contributes as functions of its own: the e-mail
    validator, the normalisation [create_user] applies to the username
    (Unicode NFKC) and to the e-mail address (lower-cased domain), and the
    password hasher with its checker. *)
Class Framework := {
  validate_email : str -> bool;      (* true: no ValidationError *)
  normalize_username : str -> str;
  normalize_email : str -> str;
  make_password : str -> str;
  check_password : str -> str -> bool;   (* raw password, encoded password *)
  check_make_password : forall raw, check_password raw (make_password raw) = true
}.

Section WithFramework.
Context {fw : Framework}.

(** User.objects.create_user(username, email, password): refuses an empty
    username, normalises, hashes the password and inserts the row; the
    username column is unique. *)
Definition create_user (name mail raw : str) : M User :=
  if negb (truthy name) then raise ValueError
  else
    let mail' := normalize_email mail in
    let name' := normalize_username name in
    db_write ;;
    taken <- User_username_exists name' ;;
    if (taken : bool) then raise IntegrityError
    else
      pk <- gets next_user_id ;;
      let user := mkUser pk name' mail' (make_password raw) true None in
      modify (fun w => set_next_user_id (pk + 1) (set_users (users w ++ [user]) w)) ;;
      ret user.

(** user.save() on a row that exists: an UPDATE of that row. *)
Definition User_save (user : User) : M unit :=
  db_write ;;
  modify (fun w =>
    set_users (map (fun u => if user_id u =? user_id user then user else u)
                   (users w)) w).

(** GraphicalPassword.objects.create(user=..., image_sequence_hash=...,
    salt=...): the owner column is unique (one-to-one). *)
Definition GraphicalPassword_create (user : User) (hash slt : str)
  : M GraphicalPassword :=
  db_write ;;
  taken <- gets (fun w => existsb (fun g => gp_user g =? user_id user)
                                  (graphical_passwords w)) ;;
  if (taken : bool) then raise IntegrityError
  else
    pk <- gets next_gp_id ;;
    now <- gets clock ;;
    let gp := mkGraphicalPassword pk (user_id user) hash slt now now in
    modify (fun w => set_next_gp_id (pk + 1)
                       (set_graphical_passwords (graphical_passwords w ++ [gp]) w)) ;;
    ret gp.

(** GraphicalPassword.objects.get(user=user); [None] is DoesNotExist. *)
Definition GraphicalPassword_get (user : User) : M (option GraphicalPassword) :=
  rows <- gets (fun w => filter (fun g => gp_user g =? user_id user)
                                (graphical_passwords w)) ;;
  match rows with
  | [] => ret None
  | [gp] => ret (Some gp)
  | _ => raise MultipleObjectsReturned
  end.

(** django.contrib.auth.authenticate (ModelBackend): the row with this
    username, when the password checks and the account is active. The
    passwords on file are taken to be in the encoding the installation's
    hasher writes now, as [create_user] stores them; for a row encoded with
    outdated parameters the framework would also re-encode the password
    column once the password checks, which is left out here. *)
Definition authenticate (name raw : str) : M (option User) :=
  rows <- gets (fun w => filter (fun u => str_eqb (username u) name) (users w)) ;;
  match rows with
  | [] => ret None
  | [user] =>
      if check_password raw (password user) && is_active user
      then ret (Some user) else ret None
  | _ => raise MultipleObjectsReturned
  end.

(** auth.login(request, user): records the login time on the user's row and
    binds the session to the user. *)
Definition auth_login (user : User) : M unit :=
  db_write ;;
  now <- gets clock ;;
  modify (fun w =>
    set_users (map (fun u => if user_id u =? user_id user
                             then mkUser (user_id u) (username u) (email u)
                                         (password u) (is_active u) (Some now)
                             else u) (users w)) w) ;;
  modify (set_session (Some (user_id user))).

(** auth.logout(request) *)
Definition auth_logout : M unit := modify (set_session None).

(** request.user.is_authenticated: the session names a user, and
    ModelBackend.get_user finds the row and the account is active
    (user_can_authenticate); otherwise the request is anonymous. *)
Definition is_authenticated (w : World) : bool :=
  match session w with
  | Some pk => existsb (fun u => (user_id u =? pk) && is_active u) (users w)
  | None => false
  end.

(** urllib.parse.quote(s, safe='/') on a string of 8-bit characters: the
    octets of its UTF-8 form, each kept when it is a letter, a digit, one of
    [_.-~] or a slash, and written as a percent sign and two uppercase
    hexadecimal digits otherwise. *)
Definition quote_keeps (x : Z) : bool :=
  ((65 <=? x) && (x <=? 90)) || ((97 <=? x) && (x <=? 122)) ||
  ((48 <=? x) && (x <=? 57)) ||
  (x =? 95) || (x =? 46) || (x =? 45) || (x =? 126) || (x =? 47).

Definition HEXCHAR (d : Z) : Z := if d <? 10 then 48 + d else 55 + d.

Definition quote_octet (x : Z) : str :=
  if quote_keeps x then [x] else [37; HEXCHAR (x / 16); HEXCHAR (x mod 16)].

Definition quote (s : string) : str :=
  flat_map (fun c => if c <? 128 then quote_octet c
                     else quote_octet (192 + c / 64)
                          ++ quote_octet (128 + c mod 64))
           (lit s).

(** What [login_required(login_url='login')] answers an anonymous request
    with (redirect_to_login): the login URL, with the full path of the
    request as the query parameter [next]. *)
Definition redirect_to_login (request : HttpRequest) : HttpResponse :=
  HttpResponseRedirect (lit "/login?next=" ++ quote (full_path request)).

(** secrets.token_bytes(n) *)
Definition token_bytes (n : nat) : M bytes :=
  pos <- gets entropy_pos ;;
  rnd <- gets entropy ;;
  modify (set_entropy_pos (pos + n)) ;;
  ret (map (fun i => rnd (pos + i)%nat mod 256) (seq 0 n)).

(** secrets.token_hex(n) *)
Definition token_hex (n : nat) : M str :=
  b <- token_bytes n ;; ret (hex b).

End WithFramework.
End Django.

(* ================================================================== *)
(** ** accounts/views.py *)
(* ================================================================== *)

Module Views.
Import Py Django.

(** [hash_image_sequence(sequence, salt)]:
    [hashlib.sha256((sequence + salt).encode()).hexdigest()].
    [None] stands for the [UnicodeEncodeError] of [encode]. *)
Definition hash_image_sequence (sequence salt : str) : option str :=
  let combined := sequence ++ salt in
  match encode combined with
  | Some b => Some (SHA256.hexdigest b)
  | None => None
  end.

(** The call of [hash_image_sequence] inside a view. *)
Definition hash_image_sequence_M (sequence salt : str) : M str :=
  fun w => match hash_image_sequence sequence salt with
           | Some h => Return h w
           | None => Raise UnicodeEncodeError w
           end.

(** The list [images] of [register] (lines 84-97). *)
Definition register_images : list str :=
  [ lit "anonymity.png"; lit "bitcoin.png"; lit "blackcoin.png";
    lit "block_chain.png"; lit "centralized.png"; lit "conversion.png";
    lit "currency_cap.png"; lit "decentralized.png"; lit "decryption.png";
    lit "digital_key.png"; lit "disclosed_identity.png"; lit "distributed.png";
    lit "dogecoin.png"; lit "emercoin.png"; lit "encryption.png";
    lit "ethereum.png"; lit "feathercoin.png"; lit "free.png";
    lit "ledger.png"; lit "litecoin.png"; lit "lost_key.png";
    lit "mastercoin.png"; lit "miner.png"; lit "miner2.png";
    lit "mining.png"; lit "mining2.png"; lit "mining_center.png";
    lit "mining_pool.png"; lit "mining_pool2.png"; lit "monero.png";
    lit "myriad.png"; lit "namecoin.png"; lit "no_double_spending.png";
    lit "nxt.png"; lit "p2p.png"; lit "peercoin.png"; lit "ponzi_scheme.png";
    lit "primecoin.png"; lit "pseudonimity.png"; lit "pyramid_scheme.png";
    lit "receive.png"; lit "ripple.png"; lit "send.png"; lit "siacoin.png";
    lit "stellar_lumen.png"; lit "transaction.png"; lit "tumbler.png";
    lit "wallet.png"; lit "zcash.png"; lit "zcoin.png" ].

(** The list [images] of [login] (lines 139-152), declared a second time. *)
Definition login_images : list str :=
  [ lit "anonymity.png"; lit "bitcoin.png"; lit "blackcoin.png";
    lit "block_chain.png"; lit "centralized.png"; lit "conversion.png";
    lit "currency_cap.png"; lit "decentralized.png"; lit "decryption.png";
    lit "digital_key.png"; lit "disclosed_identity.png"; lit "distributed.png";
    lit "dogecoin.png"; lit "emercoin.png"; lit "encryption.png";
    lit "ethereum.png"; lit "feathercoin.png"; lit "free.png";
    lit "ledger.png"; lit "litecoin.png"; lit "lost_key.png";
    lit "mastercoin.png"; lit "miner.png"; lit "miner2.png";
    lit "mining.png"; lit "mining2.png"; lit "mining_center.png";
    lit "mining_pool.png"; lit "mining_pool2.png"; lit "monero.png";
    lit "myriad.png"; lit "namecoin.png"; lit "no_double_spending.png";
    lit "nxt.png"; lit "p2p.png"; lit "peercoin.png"; lit "ponzi_scheme.png";
    lit "primecoin.png"; lit "pseudonimity.png"; lit "pyramid_scheme.png";
    lit "receive.png"; lit "ripple.png"; lit "send.png"; lit "siacoin.png";
    lit "stellar_lumen.png"; lit "transaction.png"; lit "tumbler.png";
    lit "wallet.png"; lit "zcash.png"; lit "zcoin.png" ].

Section WithFramework.
Context {fw : Framework}.

Definition index (request : HttpRequest) : M HttpResponse :=
  render (lit "accounts/register.html") [].

Definition register (request : HttpRequest) : M HttpResponse :=
  if str_eqb (method request) (lit "POST") then
    username <- POST_getitem request (lit "username") ;;
    email <- POST_getitem request (lit "email") ;;
    password <- POST_getitem request (lit "password") ;;
    let graphical_password :=
      POST_get request (lit "graphical_password") (lit "") in
    (* Validate email *)
    if negb (validate_email email) then
      messages_error (lit "Invalid EMAIL") ;;
      redirect (lit "register")
    (* Validate graphical password *)
    else if negb (truthy graphical_password) then
      messages_error
        (lit "Please select your graphical password (4-6 images)") ;;
      redirect (lit "register")
    else
      let images := split_comma graphical_password in
      if (length images <? 4)%nat || (6 <? length images)%nat then
        messages_error
          (lit "Please select between 4 to 6 images for your graphical password") ;;
        redirect (lit "register")
      else
        (* Check if username exists *)
        name_taken <- User_username_exists username ;;
        if (name_taken : bool) then
          messages_error (lit "Username already exists") ;;
          redirect (lit "register")
        else
          (* Check if email exists *)
          mail_taken <- User_email_exists email ;;
          if (mail_taken : bool) then
            messages_error (lit "Email already registered") ;;
            redirect (lit "register")
          else
            (* Create user *)
            user <- create_user username email password ;;
            User_save user ;;
            (* Create graphical password *)
            salt <- token_hex 16 ;;
            hashed_sequence <- hash_image_sequence_M graphical_password salt ;;
            GraphicalPassword_create user hashed_sequence salt ;;
            messages_success (lit "Registration successful! Please login.") ;;
            redirect (lit "login")
  else
    render (lit "accounts/register.html") [(lit "images", register_images)].

Definition login (request : HttpRequest) : M HttpResponse :=
  if str_eqb (method request) (lit "POST") then
    username <- POST_getitem request (lit "username") ;;
    password <- POST_getitem request (lit "password") ;;
    let graphical_password :=
      POST_get request (lit "graphical_password") (lit "") in
    (* Validate graphical password is provided *)
    if negb (truthy graphical_password) then
      messages_error (lit "Please select your graphical password") ;;
      redirect (lit "login")
    else
      (* Authenticate with text password *)
      user <- authenticate username password ;;
      match user with
      | Some user =>
          (* Verify graphical password *)
          found <- GraphicalPassword_get user ;;
          match found with
          | Some gp =>
              hashed_input <-
                hash_image_sequence_M graphical_password (salt gp) ;;
              if str_eqb hashed_input (image_sequence_hash gp) then
                auth_login user ;;
                messages_success
                  (lit "Welcome back, " ++ username ++ lit "!") ;;
                redirect (lit "/")
              else
                messages_error (lit "Invalid graphical password") ;;
                redirect (lit "login")
          | None =>
              messages_error (lit "Graphical password not set for this user") ;;
              redirect (lit "login")
          end
      | None =>
          messages_error (lit "Invalid username or password") ;;
          redirect (lit "login")
      end
  else
    render (lit "accounts/login.html") [(lit "images", login_images)].

(** [@login_required(login_url='login')]: an anonymous request is sent to
    the login page, with its own full path to come back to, and the view
    does not run. *)
Definition logout (request : HttpRequest) : M HttpResponse :=
  authenticated <- gets is_authenticated ;;
  if (authenticated : bool) then
    auth_logout ;;
    messages_info (lit "You have been logged out") ;;
    redirect (lit "/")
  else
    ret (redirect_to_login request).

Definition about (request : HttpRequest) : M HttpResponse :=
  render (lit "accounts/about.html") [].

Definition team (request : HttpRequest) : M HttpResponse :=
  render (lit "accounts/team.html") [].

(** The routes of accounts/urls.py. *)
Inductive Route := Rindex | Rregister | Rlogin | Rlogout | Rabout | Rteam.

Definition view (r : Route) : HttpRequest -> M HttpResponse :=
  match r with
  | Rindex => index
  | Rregister => register
  | Rlogin => login
  | Rlogout => logout
  | Rabout => about
  | Rteam => team
  end.

(** The two tables as they were in [w0], everything else as in [w]. *)
Definition rollback (w0 w : World) : World :=
  set_next_gp_id (next_gp_id w0)
    (set_next_user_id (next_user_id w0)
      (set_graphical_passwords (graphical_passwords w0)
        (set_users (users w0) w))).

(** One request served by the framework. The project settings are not part
    of the sources at hand; the one setting that matters to a view that
    raises, [ATOMIC_REQUESTS] (off unless the settings turn it on), is a
    parameter: when on, the view runs inside a transaction that an exception
    rolls back. *)
Definition handle (ATOMIC_REQUESTS : bool) (r : Route) (request : HttpRequest)
  : M HttpResponse :=
  fun w => match view r request w with
           | Return resp w' => Return resp w'
           | Raise e w' =>
               Raise e (if ATOMIC_REQUESTS then rollback w w' else w')
           end.

End WithFramework.
End Views.

(* ================================================================== *)
(** ** A concrete framework and concrete worlds, for evaluation *)
(* ================================================================== *)

Module Sample.
Import Py Django Views.

(** A fragment of NFKC: the ligature U+FB01 decomposes to "fi"; every other
    code point is kept. *)
Definition nfkc_fragment (s : str) : str :=
  flat_map (fun c => if c =? 64257 then [102; 105] else [c]) s.

(** [BaseUserManager.normalize_email] on ASCII: the part behind the last
    [@] is lower-cased; an address without [@] is kept. *)
Definition ascii_lower (c : Z) : Z :=
  if (65 <=? c) && (c <=? 90) then c + 32 else c.

Fixpoint lower_until_at (reversed : str) : str :=
  match reversed with
  | [] => []
  | c :: rest => if c =? 64 then reversed else ascii_lower c :: lower_until_at rest
  end.

Definition lower_domain (s : str) : str :=
  if existsb (fun c => c =? 64) s then rev (lower_until_at (rev s)) else s.

#[export] Instance framework : Framework := {|
  validate_email := fun s => existsb (fun c => c =? 64) s;
  normalize_username := nfkc_fragment;
  normalize_email := lower_domain;
  make_password := fun raw => lit "plain$" ++ raw;
  check_password := fun raw enc => str_eqb enc (lit "plain$" ++ raw);
  check_make_password := fun raw =>
    match str_eq_dec (lit "plain$" ++ raw) (lit "plain$" ++ raw) as d
      return (if d then true else false) = true with
    | left _ => eq_refl
    | right n => match n eq_refl with end
    end
|}.

(** An empty store, nobody logged in, a store without faults. *)
Definition empty_world : World :=
  mkWorld [] [] 1 1 None [] (fun k => Z.of_nat k * 37 + 11) 0 [] 1700000000.

Definition post (fields : QueryDict) : HttpRequest :=
  mkRequest (lit "POST") fields "/".

Definition register_form (u e p g : str) : HttpRequest :=
  mkRequest (lit "POST")
    [ (lit "username", u); (lit "email", e); (lit "password", p);
      (lit "graphical_password", g) ] "/register".

Definition login_form (u p g : str) : HttpRequest :=
  mkRequest (lit "POST")
    [ (lit "username", u); (lit "password", p);
      (lit "graphical_password", g) ] "/login".

End Sample.

(* ================================================================== *)
(** ** The views, cut into steps; the store and its constraints *)
(* ================================================================== *)

Module Steps.
Import Py Django Views.

Section WithFramework.
Context {fw : Framework}.

(** The outcome of a rejected form: back to the form named [form] with one
    more error message, everything else as it was. *)
Definition rejected (form text : str) (w : World) : result HttpResponse :=
  Return (HttpResponseRedirect (47 :: form))
         (set_messages (messages w ++ [(ERROR, text)]) w).

(** The last branch of [register] (lines 65-81): the account and the
    credential are created. *)
Definition register_create (username email password graphical_password : str)
  : M HttpResponse :=
  user <- create_user username email password ;;
  User_save user ;;
  salt <- token_hex 16 ;;
  hashed_sequence <- hash_image_sequence_M graphical_password salt ;;
  GraphicalPassword_create user hashed_sequence salt ;;
  messages_success (lit "Registration successful! Please login.") ;;
  redirect (lit "login").

(** [register] once the form fields are read (lines 38-81): the five checks
    in their order, then the creation. *)
Definition register_post (username email password graphical_password : str)
  : M HttpResponse :=
  if negb (validate_email email) then
    messages_error (lit "Invalid EMAIL") ;; redirect (lit "register")
  else if negb (truthy graphical_password) then
    messages_error (lit "Please select your graphical password (4-6 images)") ;;
    redirect (lit "register")
  else
    if (length (split_comma graphical_password) <? 4)%nat
       || (6 <? length (split_comma graphical_password))%nat then
      messages_error
        (lit "Please select between 4 to 6 images for your graphical password") ;;
      redirect (lit "register")
    else
      name_taken <- User_username_exists username ;;
      if (name_taken : bool) then
        messages_error (lit "Username already exists") ;;
        redirect (lit "register")
      else
        mail_taken <- User_email_exists email ;;
        if (mail_taken : bool) then
          messages_error (lit "Email already registered") ;;
          redirect (lit "register")
        else register_create username email password graphical_password.

(** A request that carries the form: method POST and the three text fields;
    the graphical password is whatever was submitted, or the empty string. *)
Definition posted (request : HttpRequest) (fields : list (str * str)) : Prop :=
  method request = lit "POST" /\
  Forall (fun kv => lookup (fst kv) (POST request) = Some (snd kv)) fields.

(** The row [create_user] inserts, the salt [token_hex] draws and the row
    [GraphicalPassword.objects.create] inserts, as functions of the world the
    registration starts in. *)
Definition new_user (u e p : str) (w : World) : User :=
  mkUser (next_user_id w) (normalize_username u) (normalize_email e)
         (make_password p) true None.

Definition new_salt (w : World) : str :=
  hex (map (fun i => entropy w (entropy_pos w + i)%nat mod 256) (seq 0 16)).

Definition new_credential (h : str) (w : World) : GraphicalPassword :=
  mkGraphicalPassword (next_gp_id w) (next_user_id w) h (new_salt w)
                      (clock w) (clock w).

(** The user table after [user.save()]. *)
Definition saved (user : User) (us : list User) : list User :=
  map (fun u => if user_id u =? user_id user then user else u) us.

(** The five checks of [register], as conditions on the submitted fields and
    on the store. *)
Definition checks_pass (u e g : str) (w : World) : Prop :=
  validate_email e = true /\
  g <> [] /\
  (4 <= length (split_comma g) <= 6)%nat /\
  existsb (fun x => str_eqb (username x) u) (users w) = false /\
  existsb (fun x => str_eqb (email x) e) (users w) = false.

(** [login] once the form fields are read (lines 109-136). *)
Definition login_post (username password graphical_password : str)
  : M HttpResponse :=
  if negb (truthy graphical_password) then
    messages_error (lit "Please select your graphical password") ;;
    redirect (lit "login")
  else
    user <- authenticate username password ;;
    match user with
    | Some user =>
        found <- GraphicalPassword_get user ;;
        match found with
        | Some gp =>
            hashed_input <-
              hash_image_sequence_M graphical_password (salt gp) ;;
            if str_eqb hashed_input (image_sequence_hash gp) then
              auth_login user ;;
              messages_success (lit "Welcome back, " ++ username ++ lit "!") ;;
              redirect (lit "/")
            else
              messages_error (lit "Invalid graphical password") ;;
              redirect (lit "login")
        | None =>
            messages_error (lit "Graphical password not set for this user") ;;
            redirect (lit "login")
        end
    | None =>
        messages_error (lit "Invalid username or password") ;;
        redirect (lit "login")
    end.

(** The user table after [auth.login] recorded the login time. *)
Definition touched (user : User) (now : Z) (us : list User) : list User :=
  map (fun u => if user_id u =? user_id user
                then mkUser (user_id u) (username u) (email u)
                            (password u) (is_active u) (Some now)
                else u) us.

(** The world a granted login ends in: the login time on the user's row,
    the session bound to the user, a welcome message. *)
Definition logged_in (user : User) (name : str) (w : World) : World :=
  set_messages
    (messages w ++ [(SUCCESS, lit "Welcome back, " ++ name ++ lit "!")])
    (set_session (Some (user_id user))
       (set_users (touched user (clock w) (users w))
          (set_db_faults (tl (db_faults w)) w))).

(** The constraints the database enforces on the two tables: primary keys
    below the auto-increment counter, unique usernames, at most one
    credential per user, and an existing owner for every credential. *)
Definition consistent (w : World) : Prop :=
  NoDup (map username (users w)) /\
  NoDup (map user_id (users w)) /\
  Forall (fun x => user_id x < next_user_id w) (users w) /\
  NoDup (map gp_user (graphical_passwords w)) /\
  Forall (fun g => In (gp_user g) (map user_id (users w)))
         (graphical_passwords w).

(** Neither table changed, nor the counter of user keys. *)
Definition same_tables (w w' : World) : Prop :=
  users w' = users w /\
  graphical_passwords w' = graphical_passwords w /\
  next_user_id w' = next_user_id w.

(** What one request can do to the two tables. *)
Inductive evolves (w w' : World) : Prop :=
| ev_same :
    same_tables w w' -> evolves w w'
| ev_touched user now :
    users w' = touched user now (users w) ->
    graphical_passwords w' = graphical_passwords w ->
    next_user_id w' = next_user_id w ->
    evolves w w'
| ev_user nu :
    users w' = users w ++ [nu] ->
    user_id nu = next_user_id w ->
    existsb (fun x => str_eqb (username x) (username nu)) (users w) = false ->
    next_user_id w' = next_user_id w + 1 ->
    graphical_passwords w' = graphical_passwords w ->
    evolves w w'
| ev_registered nu cred :
    users w' = users w ++ [nu] ->
    user_id nu = next_user_id w ->
    existsb (fun x => str_eqb (username x) (username nu)) (users w) = false ->
    next_user_id w' = next_user_id w + 1 ->
    graphical_passwords w' = graphical_passwords w ++ [cred] ->
    gp_user cred = user_id nu ->
    evolves w w'.

(** Serving a sequence of requests, one after the other. *)
Fixpoint serve (atomic : bool) (trace : list (Route * HttpRequest)) (w : World)
  : World :=
  match trace with
  | [] => w
  | (r, request) :: trace' =>
      serve atomic trace' (world_of (handle atomic r request w))
  end.

(** The store executes the next [n] writes. *)
Definition no_fault (n : nat) (w : World) : Prop :=
  Forall (fun b => b = false) (firstn n (db_faults w)).

End WithFramework.
End Steps.

(* ================================================================== *)
(** ** Bit strings: the 256 bits of a digest *)
(* ================================================================== *)

Module Bits.

(** All lists of [n] bits. *)
Fixpoint bitlists (n : nat) : list (list bool) :=
  match n with
  | O => [[]]
  | S n' => map (cons true) (bitlists n') ++ map (cons false) (bitlists n')
  end.

(** A 32-bit word, and a state of eight of them. *)
Definition word (x : Z) : Prop := 0 <= x < 4294967296.

Definition words (s : SHA256.regs) : Prop :=
  Forall word (SHA256.regs_words s).

(** The 32 bits of a word, and the 256 bits of the eight registers. *)
Definition bits32 (x : Z) : list bool :=
  map (fun i => Z.testbit x (Z.of_nat i)) (seq 0 32).

Definition bits256 (s : SHA256.regs) : list bool :=
  flat_map bits32 (SHA256.regs_words s).

End Bits.

(* ================================================================== *)
(** ** The statements of the specification *)
(* ================================================================== *)

Module Statements.
Import Py Django Views Steps Bits.

(** What a call answers, the world left aside. *)
Definition answer {A} (r : result A) : A + exn :=
  match r with Return a _ => inl a | Raise e _ => inr e end.

(** Following the specification: "represent the digest as lowercase
    hexadecimal": each octet is written as its two digits in base 16, high
    digit first, the digits taken from 0123456789abcdef. *)
Definition lowercase_hexadecimal (octets : bytes) : str :=
  flat_map (fun x => [nth (Z.to_nat (x / 16)) (lit "0123456789abcdef") 0;
                      nth (Z.to_nat (x mod 16)) (lit "0123456789abcdef") 0])
           octets.

(** Following the specification: "concatenate the canonical string with the
    salt (salt appended, not interleaved) and compute SHA-256 over the UTF-8
    bytes; represent the digest as lowercase hexadecimal". A string with no
    UTF-8 form has no digest. *)
Definition salted_digest (canonical slt : str) : option str :=
  match encode (canonical ++ slt) with
  | Some utf8 => Some (lowercase_hexadecimal (SHA256.digest utf8))
  | None => None
  end.

(** The shape of a stored credential, given the sequence string that was
    submitted. *)
Definition credential_shape (submitted : str) (g : GraphicalPassword) : Prop :=
  (length (salt g) = 32%nat /\
   forallb is_lower_hex (salt g) = true /\
   exists octets, length octets = 16%nat /\ Forall octet octets /\
                  salt g = hex octets) /\
  (length (image_sequence_hash g) = 64%nat /\
   forallb is_lower_hex (image_sequence_hash g) = true /\
   exists utf8,
     encode (submitted ++ salt g) = Some utf8 /\
     image_sequence_hash g = hex (SHA256.digest utf8)).

Definition MissingGraphicalPassword_register : str :=
  lit "Please select your graphical password (4-6 images)".
Definition InvalidSequenceLength : str :=
  lit "Please select between 4 to 6 images for your graphical password".
Definition DuplicateUsername : str := lit "Username already exists".
Definition DuplicateEmail : str := lit "Email already registered".


(** The counts of the specification's scenarios, evaluated: two and seven
    tokens are turned away, four, five and six are registered. *)
Definition register_tokens (g : str) : result HttpResponse :=
  @register Sample.framework
    (Sample.register_form (lit "carol") (lit "carol@example.com") (lit "pw") g)
    Sample.empty_world.

(** The failure modes of login, as the view reports them: each is an error
    message and a redirect to the login form. *)
Definition MissingGraphicalPassword_login : str :=
  lit "Please select your graphical password".
Definition InvalidCredentials : str := lit "Invalid username or password".
Definition CredentialNotConfigured : str :=
  lit "Graphical password not set for this user".
Definition InvalidGraphicalPassword : str := lit "Invalid graphical password".

(** The order of the checks of [login] on a submitted form with username
    [u], password [p] and graphical password [g]. *)
Definition verification_order
  (fw : Framework) (request : HttpRequest) (u p : str) (w : World) : Prop :=
  let g := POST_get request (lit "graphical_password") (lit "") in
  let reject text := login request w = rejected (lit "login") text w in
  (g = [] -> reject MissingGraphicalPassword_login) /\
  (g <> [] -> authenticate u p w = Return None w ->
   reject InvalidCredentials) /\
  (forall user,
      g <> [] -> authenticate u p w = Return (Some user) w ->
      GraphicalPassword_get user w = Return None w ->
      reject CredentialNotConfigured) /\
  (forall user gp h,
      g <> [] -> authenticate u p w = Return (Some user) w ->
      GraphicalPassword_get user w = Return (Some gp) w ->
      hash_image_sequence g (salt gp) = Some h ->
      h <> image_sequence_hash gp ->
      reject InvalidGraphicalPassword) /\
  (forall user gp,
      g <> [] -> authenticate u p w = Return (Some user) w ->
      GraphicalPassword_get user w = Return (Some gp) w ->
      hash_image_sequence g (salt gp) = Some (image_sequence_hash gp) ->
      hd false (db_faults w) = false ->
      login request w
      = Return (HttpResponseRedirect (lit "/")) (logged_in user u w) /\
      session (logged_in user u w) = Some (user_id user)) /\
  (forall text, reject text ->
                session (world_of (login request w)) = session w /\
                same_tables w (world_of (login request w))) /\
  (session (world_of (login request w)) <> session w ->
   exists user gp,
     g <> [] /\
     authenticate u p w = Return (Some user) w /\
     GraphicalPassword_get user w = Return (Some gp) w /\
     hash_image_sequence g (salt gp) = Some (image_sequence_hash gp) /\
     session (world_of (login request w)) = Some (user_id user)) /\
  NoDup [MissingGraphicalPassword_login; InvalidCredentials;
         CredentialNotConfigured; InvalidGraphicalPassword].

(** The world after alice has registered with the sequence of the
    specification's login scenario. *)
Definition alice_sequence : str := lit "x.png,y.png,z.png,w.png".

Definition alice_world : World :=
  world_of (@register Sample.framework
              (Sample.register_form (lit "alice") (lit "alice@example.com")
                                    (lit "pw") alice_sequence)
              Sample.empty_world).

(** The login scenarios of the specification, evaluated on that world. *)
Definition alice_login (u p g : str) : result HttpResponse :=
  @login Sample.framework (Sample.login_form u p g) alice_world.

(** An account that has no credential row. *)
Definition bare_world : World :=
  mkWorld [mkUser 1 (lit "dave") (lit "dave@example.com") (lit "plain$pw")
                  true None]
          [] 2 1 None [] (fun k => Z.of_nat k) 0 [] 1700000000.

Section RoundTrip.
Context {fw : Framework}.


End RoundTrip.

(** The username on file is the one [create_user] stores. In the sample
    framework the ligature U+FB01 is stored as "fi": the account created
    from the submitted name U+FB01 logs in under "fi", and a login that
    submits U+FB01 finds no account. *)
Definition ligature_world : World :=
  world_of (@register Sample.framework
              (Sample.register_form [64257] (lit "fi@example.com") (lit "pw")
                                    alice_sequence)
              Sample.empty_world).




(** A registration of [g] by a new user on the empty sample store. *)
Definition fresh_registration (g : str) : result HttpResponse :=
  @register Sample.framework
    (Sample.register_form (lit "erin") (lit "erin@example.com") (lit "pw") g)
    Sample.empty_world.

Definition registers (r : result HttpResponse) : Prop :=
  answer r = inl (HttpResponseRedirect (lit "/login")) /\
  length (users (world_of r)) = 1%nat /\
  length (graphical_passwords (world_of r)) = 1%nat.

Definition field_count_only : Prop :=
  (forall s : str,
      s <> [] -> (3 <= commas s <= 5)%nat ->
      (length (split_comma s) <? 4)%nat || (6 <? length (split_comma s))%nat
      = false) /\
  (forall (fw : Framework) request u e p w,
      let s := POST_get request (lit "graphical_password") (lit "") in
      s <> [] -> (3 <= commas s <= 5)%nat ->
      posted request
        [(lit "username", u); (lit "email", e); (lit "password", p)] ->
      validate_email e = true ->
      existsb (fun x => str_eqb (username x) u) (users w) = false ->
      existsb (fun x => str_eqb (email x) e) (users w) = false ->
      register request w = register_create u e p s w) /\
  (forall (fw : Framework) request u e p w,
      let s := POST_get request (lit "graphical_password") (lit "") in
      s <> [] -> (3 <= commas s <= 5)%nat ->
      posted request
        [(lit "username", u); (lit "email", e); (lit "password", p)] ->
      validate_email e = true ->
      existsb (fun x => str_eqb (username x) u) (users w) = false ->
      existsb (fun x => str_eqb (email x) e) (users w) = false ->
      consistent w -> u <> [] -> no_fault 3 w ->
      existsb (fun x => str_eqb (username x) (normalize_username u)) (users w)
        = false ->
      forallb scalar s = true ->
      exists w' h,
        register request w = Return (HttpResponseRedirect (lit "/login")) w' /\
        graphical_passwords w'
          = graphical_passwords w ++ [new_credential h w] /\
        hash_image_sequence s (new_salt w) = Some h) /\
  registers (fresh_registration (lit ",,,")) /\
  split_comma (lit ",,,") = [[]; []; []; []] /\
  registers (fresh_registration (lit "x.png,y.png,z.png,w.png")) /\
  forallb (fun t => negb (existsb (str_eqb t) register_images))
          (split_comma (lit "x.png,y.png,z.png,w.png")) = true.

(** Following the specification: the verifier, a function of the submitted
    sequence, the stored salt and the stored hash. [None]: the submitted
    string has no UTF-8 form. *)
Definition verifier (submitted stored_salt stored_hash : str) : option bool :=
  match hash_image_sequence submitted stored_salt with
  | Some recomputed => Some (str_eqb recomputed stored_hash)
  | None => None
  end.

Definition credentials_immutable (fw : Framework) (atomic : bool) : Prop :=
  (forall request w,
      graphical_passwords (world_of (login request w))
      = graphical_passwords w) /\
  (forall r request w,
      r <> Rregister ->
      graphical_passwords (world_of (handle atomic r request w))
      = graphical_passwords w) /\
  (forall request w,
      graphical_passwords (world_of (handle atomic Rregister request w))
        = graphical_passwords w
      \/ exists cred,
           graphical_passwords (world_of (handle atomic Rregister request w))
             = graphical_passwords w ++ [cred] /\
           answer (handle atomic Rregister request w)
             = inl (HttpResponseRedirect (lit "/login"))) /\
  (forall trace w,
      exists added,
        graphical_passwords (serve atomic trace w)
        = graphical_passwords w ++ added) /\
  (forall request u p w user gp,
      posted request [(lit "username", u); (lit "password", p)] ->
      POST_get request (lit "graphical_password") (lit "") <> [] ->
      authenticate u p w = Return (Some user) w ->
      GraphicalPassword_get user w = Return (Some gp) w ->
      hd false (db_faults w) = false ->
      answer (login request w)
      = match verifier (POST_get request (lit "graphical_password") (lit ""))
                       (salt gp) (image_sequence_hash gp) with
        | Some true => inl (HttpResponseRedirect (lit "/"))
        | Some false => inl (HttpResponseRedirect (lit "/login"))
        | None => inr UnicodeEncodeError
        end).




(** The claim as the specification states it: under one salt, two token
    sequences that are permutations of each other, differ in order and are
    joined into different canonical strings always hash differently. *)
Definition order_sensitive : Prop :=
  forall (slt : str) (seq1 seq2 : list str),
    Forall comma_free seq1 -> Forall comma_free seq2 ->
    Permutation seq1 seq2 -> seq1 <> seq2 ->
    join_comma seq1 <> join_comma seq2 ->
    hash_image_sequence (join_comma seq1) slt
    <> hash_image_sequence (join_comma seq2) slt.

(** A family of sequences over the two tokens "a" and "b": each bit
    contributes the pair a,b or the pair b,a. Any two members of the same
    length are permutations of each other. *)
Fixpoint pairs (bits : list bool) : list str :=
  match bits with
  | [] => []
  | true :: bits' => [97] :: [98] :: pairs bits'
  | false :: bits' => [98] :: [97] :: pairs bits'
  end.

Definition ascii (c : Z) : Prop := 0 <= c < 128.

(** The 256 bits of the digest of a member of the family under [slt]. *)
Definition family_bits (salt_octets : bytes) (x : list bool) : list bool :=
  bits256 (SHA256.state (join_comma (pairs x) ++ salt_octets)).

(** What does hold: a different order is a different hashed message, and
    the digests differ unless SHA-256 itself collides on the two messages;
    on the sequences of the specification and of the test suite, reversed,
    the digests do differ. *)
Definition order_changes_message : Prop :=
  (forall (slt : str) (seq1 seq2 : list str) (d1 d2 : str),
      Forall comma_free seq1 -> Forall comma_free seq2 ->
      Permutation seq1 seq2 -> seq1 <> seq2 ->
      hash_image_sequence (join_comma seq1) slt = Some d1 ->
      hash_image_sequence (join_comma seq2) slt = Some d2 ->
      join_comma seq1 <> join_comma seq2 /\
      exists m1 m2,
        encode (join_comma seq1 ++ slt) = Some m1 /\
        encode (join_comma seq2 ++ slt) = Some m2 /\
        m1 <> m2 /\
        (d1 = d2 <-> SHA256.digest m1 = SHA256.digest m2)) /\
  hash_image_sequence (join_comma [lit "a"; lit "b"; lit "c"; lit "d"])
                      (lit "0b30557a9fc4e90e33587da2c7ec1136")
  <> hash_image_sequence (join_comma [lit "d"; lit "c"; lit "b"; lit "a"])
                         (lit "0b30557a9fc4e90e33587da2c7ec1136") /\
  hash_image_sequence
    (join_comma [lit "anonymity.png"; lit "bitcoin.png"; lit "blackcoin.png";
                 lit "block_chain.png"])
    (lit "0b30557a9fc4e90e33587da2c7ec1136")
  <> hash_image_sequence
       (join_comma [lit "block_chain.png"; lit "blackcoin.png";
                    lit "bitcoin.png"; lit "anonymity.png"])
       (lit "0b30557a9fc4e90e33587da2c7ec1136").

End Statements.

(* ================================================================== *)
(** ** The rest of the application: routing, the model's name, and the
       notions further properties are stated with *)
(* ================================================================== *)

Module Coverage.
Import Py Django Views Steps Statements.

(** accounts/urls.py: the view each route is served by. *)
Definition url_views : list (str * Route) :=
  [ (lit "", Rindex);
    (lit "register", Rregister);
    (lit "login", Rlogin);
    (lit "logout", Rlogout);
    (lit "about", Rabout);
    (lit "team", Rteam) ].

(** The path of a URL: what precedes the query string. *)
Fixpoint url_path (url : str) : str :=
  match url with
  | [] => []
  | c :: url' => if c =? 63 then [] else c :: url_path url'
  end.

(** The URL resolver on these patterns: the path, without its leading
    slash, is matched against the routes, which hold no converters. *)
Definition resolve (url : str) : option Route :=
  match url_path url with
  | 47 :: route =>
      match find (fun p => str_eqb (fst p) route) url_views with
      | Some (_, r) => Some r
      | None => None
      end
  | _ => None
  end.

(** [GraphicalPassword.__str__] (models.py, lines 17-18):
    [f"Graphical Password for {self.user.username}"]. Reading [self.user]
    fetches the owner's row; [None] when that row is not there or not
    unique. *)
Definition GraphicalPassword_str (g : GraphicalPassword) (w : World)
  : option str :=
  match filter (fun u => user_id u =? gp_user g) (users w) with
  | [owner] => Some (lit "Graphical Password for " ++ username owner)
  | _ => None
  end.

(** Who an account is: its key, username, e-mail address and active flag
    (the encoded password and the time of the last login left aside). *)
Definition account_identity (u : User) : Z * str * str * bool :=
  (user_id u, username u, email u, is_active u).

(** The 16 octets [secrets.token_hex(16)] reads when [n] octets of the
    random source are already consumed. *)
Definition draw (w : World) (n : nat) : bytes :=
  map (fun i => entropy w (n + i)%nat mod 256) (seq 0 16).

(** A form submitted by POST in which [key] is the first of [keys], in the
    order the view reads them, that is absent. *)
Fixpoint first_missing (request : HttpRequest) (keys : list str) (key : str)
  : Prop :=
  match keys with
  | [] => False
  | k :: keys' =>
      match lookup k (POST request) with
      | None => key = k
      | Some _ => first_missing request keys' key
      end
  end.

(** The message a returned form submission is reported with, by the URL it
    redirects to. *)
Definition reported (form success : str) (w w' : World) (resp : HttpResponse)
  : Prop :=
  (resp = HttpResponseRedirect (47 :: form) /\
   exists text, messages w' = messages w ++ [(ERROR, text)])
  \/ (resp = HttpResponseRedirect success /\
      exists text, messages w' = messages w ++ [(SUCCESS, text)]).

End Coverage.

(* ================================================================== *)
(** ** Strings, octets and digests: basic facts *)
(* ================================================================== *)

Module PyFacts.
Import Py.

Lemma str_eqb_refl (a : str) : str_eqb a a = true.
Proof. unfold str_eqb. destruct (str_eq_dec a a); congruence. Qed.

Lemma str_eqb_eq (a b : str) : str_eqb a b = true <-> a = b.
Proof.
  unfold str_eqb. destruct (str_eq_dec a b); split; congruence.
Qed.

Lemma str_eqb_neq (a b : str) : str_eqb a b = false <-> a <> b.
Proof.
  unfold str_eqb. destruct (str_eq_dec a b); split; congruence.
Qed.

Lemma truthy_false (s : str) : truthy s = false <-> s = [].
Proof. destruct s; simpl; split; congruence. Qed.

(** *** Hexadecimal *)

Lemma hex_length (b : bytes) : length (hex b) = (2 * length b)%nat.
Proof. induction b as [|x b IH]; simpl; [reflexivity | rewrite IH; lia]. Qed.

Lemma hexchar_lower (d : Z) : 0 <= d < 16 -> is_lower_hex (hexchar d) = true.
Proof.
  intros Hd. unfold is_lower_hex, hexchar.
  destruct (d <? 10) eqn:E.
  - apply Z.ltb_lt in E. apply orb_true_iff. left.
    apply andb_true_iff. split; apply Z.leb_le; lia.
  - apply Z.ltb_ge in E. apply orb_true_iff. right.
    apply andb_true_iff. split; apply Z.leb_le; lia.
Qed.

Lemma hex_lower (b : bytes) :
  Forall octet b -> forallb is_lower_hex (hex b) = true.
Proof.
  induction 1 as [|x b Hx _ IH]; simpl; [reflexivity|].
  unfold octet in Hx.
  rewrite !hexchar_lower, IH; [reflexivity | |].
  - apply Z.mod_pos_bound. lia.
  - split; [apply Z.div_pos; lia | apply Z.div_lt_upper_bound; lia].
Qed.

(** *** UTF-8 *)

Lemma lower_hex_scalar (c : Z) : is_lower_hex c = true -> scalar c = true.
Proof.
  unfold is_lower_hex, scalar. intros H.
  apply orb_true_iff in H.
  destruct H as [H|H]; apply andb_true_iff in H; destruct H as [H1 H2];
    apply Z.leb_le in H1; apply Z.leb_le in H2;
    repeat (apply andb_true_iff; split); try (apply Z.leb_le; lia);
    apply negb_true_iff; apply andb_false_iff; left; apply Z.leb_gt; lia.
Qed.

Lemma utf8_char_scalar (c : Z) :
  scalar c = true -> exists b, utf8_char c = Some b.
Proof.
  intros H. unfold utf8_char. rewrite H. simpl.
  destruct (c <? 128); [eauto|].
  destruct (c <? 2048); [eauto|].
  destruct (c <? 65536); eauto.
Qed.

Lemma utf8_char_surrogate (c : Z) : scalar c = false -> utf8_char c = None.
Proof. intros H. unfold utf8_char. rewrite H. reflexivity. Qed.

Lemma encode_app (a b : str) :
  encode (a ++ b) =
  match encode a, encode b with
  | Some x, Some y => Some (x ++ y)
  | _, _ => None
  end.
Proof.
  induction a as [|c a IH]; simpl.
  - destruct (encode b); reflexivity.
  - rewrite IH. destruct (utf8_char c); [|reflexivity].
    destruct (encode a); [|reflexivity].
    destruct (encode b); [|reflexivity].
    now rewrite app_assoc.
Qed.

Lemma encode_scalar (s : str) :
  forallb scalar s = true <-> exists b, encode s = Some b.
Proof.
  induction s as [|c s IH]; simpl.
  - split; eauto.
  - rewrite andb_true_iff, IH. split.
    + intros [Hc [bs Hs]]. destruct (utf8_char_scalar c Hc) as [b Hb].
      rewrite Hb, Hs. eauto.
    + intros [b Hb]. destruct (scalar c) eqn:Hc.
      * split; [reflexivity|]. destruct (utf8_char c); [|discriminate].
        destruct (encode s); [eauto | discriminate].
      * rewrite (utf8_char_surrogate c Hc) in Hb. discriminate.
Qed.

Lemma forallb_lower_hex_scalar (s : str) :
  forallb is_lower_hex s = true -> forallb scalar s = true.
Proof.
  rewrite !forallb_forall. intros H c Hc. apply lower_hex_scalar, H, Hc.
Qed.

(** *** Splitting at commas *)

Lemma split_comma_nonempty (s : str) : split_comma s <> [].
Proof.
  induction s as [|c s IH]; simpl; [discriminate|].
  destruct (c =? 44); [discriminate|].
  destruct (split_comma s); [congruence | discriminate].
Qed.

Lemma split_comma_length (s : str) :
  length (split_comma s) = S (commas s).
Proof.
  unfold commas. induction s as [|c s IH]; simpl; [reflexivity|].
  destruct (Z.eq_dec c 44) as [->|Hc].
  - simpl. now rewrite IH.
  - apply Z.eqb_neq in Hc. rewrite Hc.
    destruct (split_comma s) eqn:E; [now apply split_comma_nonempty in E|].
    simpl in *. exact IH.
Qed.

Lemma split_comma_comma_free (t : str) :
  comma_free t -> split_comma t = [t].
Proof.
  unfold comma_free. induction t as [|c t IH]; simpl; [reflexivity|].
  intros H. destruct (c =? 44) eqn:E.
  - apply Z.eqb_eq in E. exfalso. apply H. now left.
  - rewrite IH; [reflexivity|]. intros Hin. apply H. now right.
Qed.

Lemma split_comma_app (t s : str) :
  comma_free t -> split_comma (t ++ 44 :: s) = t :: split_comma s.
Proof.
  unfold comma_free. induction t as [|c t IH]; simpl; intros H.
  - reflexivity.
  - destruct (c =? 44) eqn:E.
    + apply Z.eqb_eq in E. exfalso. apply H. now left.
    + rewrite IH; [reflexivity|]. intros Hin. apply H. now right.
Qed.

(** Splitting undoes joining: the fields of the canonical string are the
    tokens, as long as no token holds a comma. *)
Lemma split_join (tokens : list str) :
  tokens <> [] -> Forall comma_free tokens ->
  split_comma (join_comma tokens) = tokens.
Proof.
  induction tokens as [|t ts IH]; [congruence|].
  intros _ H. inversion H as [|? ? Ht Hts]; subst.
  destruct ts as [|t' ts].
  - simpl. now apply split_comma_comma_free.
  - change (join_comma (t :: t' :: ts)) with (t ++ 44 :: join_comma (t' :: ts)).
    rewrite split_comma_app by assumption.
    rewrite IH; [reflexivity | discriminate | assumption].
Qed.

Lemma join_comma_inj (s1 s2 : list str) :
  Forall comma_free s1 -> Forall comma_free s2 ->
  s1 <> [] -> s2 <> [] ->
  join_comma s1 = join_comma s2 -> s1 = s2.
Proof.
  intros F1 F2 N1 N2 E.
  rewrite <- (split_join s1), <- (split_join s2) by assumption.
  now rewrite E.
Qed.

(** *** Hexadecimal and UTF-8 lose nothing *)

Lemma hexchar_inj (d1 d2 : Z) :
  0 <= d1 < 16 -> 0 <= d2 < 16 -> hexchar d1 = hexchar d2 -> d1 = d2.
Proof.
  unfold hexchar. intros H1 H2.
  destruct (d1 <? 10) eqn:E1, (d2 <? 10) eqn:E2;
    try apply Z.ltb_lt in E1; try apply Z.ltb_ge in E1;
    try apply Z.ltb_lt in E2; try apply Z.ltb_ge in E2; lia.
Qed.

Lemma hex_inj (a b : bytes) :
  Forall octet a -> Forall octet b -> hex a = hex b -> a = b.
Proof.
  intros Ha. revert b. induction Ha as [|x a Hx _ IH]; intros b Hb E.
  - destruct b; [reflexivity | discriminate E].
  - destruct Hb as [|y b Hy Hb]; [discriminate E|].
    cbn [hex] in E. injection E as E1 E2 E3. unfold octet in Hx, Hy.
    apply hexchar_inj in E1, E2;
      try (apply Z.mod_pos_bound; lia);
      try (split; [apply Z.div_pos; lia | apply Z.div_lt_upper_bound; lia]).
    f_equal; [|now apply IH].
    rewrite (Z.div_mod x 16), (Z.div_mod y 16) by lia. congruence.
Qed.

(** A property checked on every number below [n] holds below [n]. *)
Lemma range_check (P : Z -> bool) (n : nat) :
  forallb P (map Z.of_nat (seq 0 n)) = true ->
  forall x, 0 <= x < Z.of_nat n -> P x = true.
Proof.
  intros H x Hx. rewrite forallb_forall in H. apply H.
  apply in_map_iff. exists (Z.to_nat x). split; [lia|].
  apply in_seq. lia.
Qed.

Lemma lor_128 (x : Z) : 0 <= x < 64 -> Z.lor 128 x = 128 + x.
Proof.
  intros H. apply Z.eqb_eq.
  apply (range_check (fun x => Z.lor 128 x =? 128 + x) 64);
    [vm_compute; reflexivity | lia].
Qed.

Lemma lor_192 (x : Z) : 0 <= x < 32 -> Z.lor 192 x = 192 + x.
Proof.
  intros H. apply Z.eqb_eq.
  apply (range_check (fun x => Z.lor 192 x =? 192 + x) 32);
    [vm_compute; reflexivity | lia].
Qed.

Lemma lor_224 (x : Z) : 0 <= x < 16 -> Z.lor 224 x = 224 + x.
Proof.
  intros H. apply Z.eqb_eq.
  apply (range_check (fun x => Z.lor 224 x =? 224 + x) 16);
    [vm_compute; reflexivity | lia].
Qed.

Lemma lor_240 (x : Z) : 0 <= x < 8 -> Z.lor 240 x = 240 + x.
Proof.
  intros H. apply Z.eqb_eq.
  apply (range_check (fun x => Z.lor 240 x =? 240 + x) 8);
    [vm_compute; reflexivity | lia].
Qed.

Lemma land_63 (x : Z) : Z.land x 63 = x mod 64.
Proof. change 63 with (Z.ones 6). now rewrite Z.land_ones by lia. Qed.

Lemma shiftr_div (x : Z) (n : Z) : 0 <= n -> Z.shiftr x n = x / 2 ^ n.
Proof. apply Z.shiftr_div_pow2. Qed.

Lemma scalar_range (c : Z) : scalar c = true -> 0 <= c <= 1114111.
Proof.
  unfold scalar. intros H. apply andb_true_iff in H. destruct H as [H _].
  apply andb_true_iff in H. destruct H as [H1 H2].
  apply Z.leb_le in H1, H2. lia.
Qed.

Lemma utf8_char_arith (c : Z) :
  scalar c = true -> utf8_char c = Some (utf8_arith c).
Proof.
  intros Hs. pose proof (scalar_range c Hs) as Hr.
  unfold utf8_char, utf8_arith. rewrite Hs. cbn [negb].
  rewrite !land_63, !shiftr_div by lia.
  change (2 ^ 6) with 64. change (2 ^ 12) with 4096.
  change (2 ^ 18) with 262144.
  destruct (c <? 128) eqn:E1; [reflexivity|]. apply Z.ltb_ge in E1.
  destruct (c <? 2048) eqn:E2.
  { apply Z.ltb_lt in E2.
    rewrite lor_192, lor_128; [reflexivity | |].
    - apply Z.mod_pos_bound. lia.
    - split; [apply Z.div_pos; lia | apply Z.div_lt_upper_bound; lia]. }
  apply Z.ltb_ge in E2.
  destruct (c <? 65536) eqn:E3.
  { apply Z.ltb_lt in E3.
    rewrite lor_224, !lor_128; [reflexivity | | |].
    - apply Z.mod_pos_bound. lia.
    - apply Z.mod_pos_bound. lia.
    - split; [apply Z.div_pos; lia | apply Z.div_lt_upper_bound; lia]. }
  apply Z.ltb_ge in E3.
  rewrite lor_240, !lor_128; [reflexivity | | | |].
  - apply Z.mod_pos_bound. lia.
  - apply Z.mod_pos_bound. lia.
  - apply Z.mod_pos_bound. lia.
  - split; [apply Z.div_pos; lia | apply Z.div_lt_upper_bound; lia].
Qed.

Lemma cons_eq {A} (a b : A) (l m : list A) :
  a :: l = b :: m -> a = b /\ l = m.
Proof. intros [= -> ->]. auto. Qed.

(** UTF-8 is a prefix code: the octets of one code point, followed by
    anything, determine the code point and what follows. *)
Lemma utf8_arith_prefix (c1 c2 : Z) (r1 r2 : bytes) :
  0 <= c1 <= 1114111 -> 0 <= c2 <= 1114111 ->
  utf8_arith c1 ++ r1 = utf8_arith c2 ++ r2 -> c1 = c2 /\ r1 = r2.
Proof.
  intros H1 H2. unfold utf8_arith.
  destruct (c1 <? 128) eqn:A1; [apply Z.ltb_lt in A1|apply Z.ltb_ge in A1];
  [|destruct (c1 <? 2048) eqn:A2;
    [apply Z.ltb_lt in A2|apply Z.ltb_ge in A2];
    [|destruct (c1 <? 65536) eqn:A3;
      [apply Z.ltb_lt in A3|apply Z.ltb_ge in A3]]];
  (destruct (c2 <? 128) eqn:B1; [apply Z.ltb_lt in B1|apply Z.ltb_ge in B1];
   [|destruct (c2 <? 2048) eqn:B2;
     [apply Z.ltb_lt in B2|apply Z.ltb_ge in B2];
     [|destruct (c2 <? 65536) eqn:B3;
       [apply Z.ltb_lt in B3|apply Z.ltb_ge in B3]]]);
  rewrite <- !app_comm_cons, !app_nil_l; intros E;
  repeat match goal with
         | E : _ :: _ = _ :: _ |- _ => apply cons_eq in E; destruct E as [? E]
         end;
  first [ split; [Z.div_mod_to_equations; lia | exact E]
        | exfalso; Z.div_mod_to_equations; lia ].
Qed.

Lemma encode_inj (s1 s2 : str) (m : bytes) :
  encode s1 = Some m -> encode s2 = Some m -> s1 = s2.
Proof.
  revert s2 m. induction s1 as [|c1 s1 IH]; intros [|c2 s2] m E1 E2.
  - reflexivity.
  - exfalso. cbn in E1. injection E1 as <-. cbn [encode] in E2.
    destruct (scalar c2) eqn:Hs;
      [|now rewrite (utf8_char_surrogate c2 Hs) in E2].
    rewrite (utf8_char_arith c2 Hs) in E2.
    destruct (encode s2); [|discriminate]. injection E2 as E2.
    unfold utf8_arith in E2.
    destruct (c2 <? 128); [discriminate|].
    destruct (c2 <? 2048); [discriminate|].
    destruct (c2 <? 65536); discriminate.
  - exfalso. cbn in E2. injection E2 as <-. cbn [encode] in E1.
    destruct (scalar c1) eqn:Hs;
      [|now rewrite (utf8_char_surrogate c1 Hs) in E1].
    rewrite (utf8_char_arith c1 Hs) in E1.
    destruct (encode s1); [|discriminate]. injection E1 as E1.
    unfold utf8_arith in E1.
    destruct (c1 <? 128); [discriminate|].
    destruct (c1 <? 2048); [discriminate|].
    destruct (c1 <? 65536); discriminate.
  - cbn [encode] in E1, E2.
    destruct (scalar c1) eqn:Hs1;
      [|now rewrite (utf8_char_surrogate c1 Hs1) in E1].
    destruct (scalar c2) eqn:Hs2;
      [|now rewrite (utf8_char_surrogate c2 Hs2) in E2].
    rewrite (utf8_char_arith c1 Hs1) in E1.
    rewrite (utf8_char_arith c2 Hs2) in E2.
    destruct (encode s1) as [m1|] eqn:M1; [|discriminate].
    destruct (encode s2) as [m2|] eqn:M2; [|discriminate].
    injection E1 as E1. injection E2 as E2. rewrite <- E2 in E1.
    apply utf8_arith_prefix in E1; try now apply scalar_range.
    destruct E1 as [-> ->]. f_equal. now apply (IH s2 m2).
Qed.

End PyFacts.

Module SHA256Facts.
Import Py PyFacts.

Lemma be_bytes_octets (n : nat) (x : Z) : Forall octet (SHA256.be_bytes n x).
Proof.
  unfold octet. induction n as [|n IH]; simpl; constructor; [|exact IH].
  apply Z.mod_pos_bound. lia.
Qed.

Lemma digest_length (msg : list Z) : length (SHA256.digest msg) = 32%nat.
Proof. reflexivity. Qed.

Lemma digest_octets (msg : list Z) : Forall octet (SHA256.digest msg).
Proof.
  unfold SHA256.digest. apply Forall_flat_map.
  apply Forall_forall. intros x _. apply be_bytes_octets.
Qed.

Lemma hexdigest_length (msg : list Z) :
  length (SHA256.hexdigest msg) = 64%nat.
Proof.
  unfold SHA256.hexdigest. now rewrite hex_length, digest_length.
Qed.

Lemma hexdigest_lower (msg : list Z) :
  forallb is_lower_hex (SHA256.hexdigest msg) = true.
Proof. apply hex_lower, digest_octets. Qed.

(** The implementation agrees with published SHA-256 digests: the empty
    message, one block, two blocks, and a message that is not ASCII. *)
Example sha256_empty :
  SHA256.hexdigest [] =
  lit "e3b0c44298fc1c149afbf4c8996fb92427ae41e4649b934ca495991b7852b855".
Proof. vm_compute. reflexivity. Qed.

Example sha256_abc :
  option_map SHA256.hexdigest (encode (lit "abc")) =
  Some (lit "ba7816bf8f01cfea414140de5dae2223b00361a396177a9cb410ff61f20015ad").
Proof. vm_compute. reflexivity. Qed.

Example sha256_two_blocks :
  option_map SHA256.hexdigest
    (encode (lit "abcdbcdecdefdefgefghfghighijhijkijkljklmklmnlmnomnopnopq")) =
  Some (lit "248d6a61d20638b8e5c026930c3e6039a33ce45964ff2167f6ecedd419db06c1").
Proof. vm_compute. reflexivity. Qed.

(** U+FB01, U+20AC, U+1F600, U+00E9: three, three, four and two octets. *)
Example sha256_utf8 :
  option_map SHA256.hexdigest (encode [64257; 8364; 128512; 233]) =
  Some (lit "296e8efa08c75db62ba80621595f02b576ddd81650caa8aca9ba91ab8ff49bfc").
Proof. vm_compute. reflexivity. Qed.

Example encode_utf8 :
  encode [64257; 8364; 128512; 233] =
  Some [239; 172; 129; 226; 130; 172; 240; 159; 152; 128; 195; 169].
Proof. reflexivity. Qed.

Example encode_surrogate : encode [97; 55296] = None.
Proof. reflexivity. Qed.

End SHA256Facts.

(* ================================================================== *)
(** ** The views, step by step *)
(* ================================================================== *)

Module ViewFacts.
Import Py PyFacts Django Views Steps.

Lemma bind_Return {A B} (m : M A) (k : A -> M B) w a w' :
  m w = Return a w' -> bind m k w = k a w'.
Proof. unfold bind. now intros ->. Qed.

Lemma bind_Raise {A B} (m : M A) (k : A -> M B) w e w' :
  m w = Raise e w' -> bind m k w = Raise e w'.
Proof. unfold bind. now intros ->. Qed.

Lemma reject_register (text : str) (w : World) :
  (messages_error text ;; redirect (lit "register")) w
  = rejected (lit "register") text w.
Proof. reflexivity. Qed.

Lemma reject_login (text : str) (w : World) :
  (messages_error text ;; redirect (lit "login")) w
  = rejected (lit "login") text w.
Proof. reflexivity. Qed.

Section WithFramework.
Context {fw : Framework}.

(** *** Registration: the part after the form fields are read *)

Lemma register_is_register_post request u e p w :
  posted request
    [(lit "username", u); (lit "email", e); (lit "password", p)] ->
  register request w
  = register_post u e p
      (POST_get request (lit "graphical_password") (lit "")) w.
Proof.
  intros [Hm Hf].
  inversion Hf as [|? ? Hu Hf1]; subst. inversion Hf1 as [|? ? He Hf2]; subst.
  inversion Hf2 as [|? ? Hp _]; subst. cbn [fst snd] in *.
  unfold register. rewrite Hm.
  change (str_eqb (lit "POST") (lit "POST")) with true. cbv iota.
  unfold POST_getitem. rewrite Hu, He, Hp.
  reflexivity.
Qed.

Lemma redirect_login :
  redirect (lit "login") = ret (HttpResponseRedirect (lit "/login")).
Proof. reflexivity. Qed.

(** Case analysis on every test a computation makes on its way to the
    outcome recorded in a hypothesis. *)
Ltac split_tests :=
  repeat match goal with
         | H : context [if ?c then _ else _] |- _ => destruct c eqn:?
         | H : context [match ?x with _ => _ end] |- _ => destruct x eqn:?
         end.

Arguments hex : simpl never.
Arguments lit : simpl never.
Arguments hash_image_sequence : simpl never.

(** A registration that returns: every step succeeded. *)
Lemma register_create_Return u e p g w resp w' :
  register_create u e p g w = Return resp w' ->
  exists h,
    hash_image_sequence g (new_salt w) = Some h /\
    resp = HttpResponseRedirect (lit "/login") /\
    u <> [] /\
    existsb (fun x => str_eqb (username x) (normalize_username u)) (users w)
      = false /\
    existsb (fun x => gp_user x =? next_user_id w) (graphical_passwords w)
      = false /\
    users w' = saved (new_user u e p w) (users w ++ [new_user u e p w]) /\
    graphical_passwords w' = graphical_passwords w ++ [new_credential h w] /\
    session w' = session w /\
    next_user_id w' = next_user_id w + 1 /\
    next_gp_id w' = next_gp_id w + 1 /\
    entropy w' = entropy w /\
    entropy_pos w' = (entropy_pos w + 16)%nat /\
    clock w' = clock w /\
    db_faults w' = tl (tl (tl (db_faults w))) /\
    messages w' = messages w
      ++ [(SUCCESS, lit "Registration successful! Please login.")].
Proof.
  destruct w as [us gs nu ng se ms en ep fa cl].
  unfold register_create. rewrite redirect_login.
  unfold create_user, User_save, token_hex, token_bytes,
    hash_image_sequence_M, GraphicalPassword_create, User_username_exists,
    db_write, messages_success, messages_add, bind, gets, modify, ret, raise.
  cbn [users graphical_passwords next_user_id next_gp_id session messages
       entropy entropy_pos db_faults clock set_users set_graphical_passwords
       set_next_user_id set_next_gp_id set_session set_messages
       set_entropy_pos set_db_faults user_id].
  cbv beta. intros H. split_tests; try discriminate.
  repeat match goal with
         | H : Return _ _ = Return _ _ |- _ => inversion H; subst; clear H
         end.
  cbn in *.
  eexists. split; [eassumption|].
  repeat split; try reflexivity; try assumption.
  destruct u; [discriminate | congruence].
Qed.

(** A registration that raises: no credential row was written; the user
    row is there exactly when the failure came after its insertion. *)
Lemma register_create_Raise u e p g w ex w' :
  register_create u e p g w = Raise ex w' ->
  graphical_passwords w' = graphical_passwords w /\
  session w' = session w /\
  ((users w' = users w /\ next_user_id w' = next_user_id w /\
    (u = [] \/ hd false (db_faults w) = true \/
     existsb (fun x => str_eqb (username x) (normalize_username u)) (users w)
       = true))
   \/
   ((users w' = users w ++ [new_user u e p w] \/
     users w' = saved (new_user u e p w) (users w ++ [new_user u e p w])) /\
    next_user_id w' = next_user_id w + 1 /\
    u <> [] /\ hd false (db_faults w) = false /\
    existsb (fun x => str_eqb (username x) (normalize_username u)) (users w)
      = false /\
    (hd false (tl (db_faults w)) = true \/
     hash_image_sequence g (new_salt w) = None \/
     hd false (tl (tl (db_faults w))) = true \/
     existsb (fun x => gp_user x =? next_user_id w) (graphical_passwords w)
       = true))).
Proof.
  destruct w as [us gs nu ng se ms en ep fa cl].
  unfold register_create. rewrite redirect_login.
  unfold create_user, User_save, token_hex, token_bytes,
    hash_image_sequence_M, GraphicalPassword_create, User_username_exists,
    db_write, messages_success, messages_add, bind, gets, modify, ret, raise.
  cbv beta. intros H. split_tests; try discriminate;
  repeat match goal with
         | H : Return _ _ = Return _ _ |- _ => inversion H; subst; clear H
         | H : Raise _ _ = Raise _ _ |- _ => inversion H; subst; clear H
         end;
  cbn in *; (split; [reflexivity|]); (split; [reflexivity|]).
  all: try (left; split; [reflexivity|]; split; [reflexivity|]; destruct u;
            [now left | try discriminate; auto]).
  all: right; (split; [auto|]); (split; [reflexivity|]);
    (split; [destruct u; [discriminate|congruence]|]);
    (split; [reflexivity|]); (split; [assumption|]);
    unfold new_salt; cbn; auto 6.
Qed.

Lemma register_post_pass u e p g w :
  checks_pass u e g w ->
  register_post u e p g w = register_create u e p g w.
Proof.
  intros (Hv & Hg & Hl & Hu & He).
  unfold register_post. rewrite Hv. cbn [negb].
  destruct g as [|c g]; [congruence|]. cbn [truthy negb].
  replace ((length (split_comma (c :: g)) <? 4)%nat
           || (6 <? length (split_comma (c :: g)))%nat) with false.
  2:{ symmetry. apply orb_false_iff. split; apply Nat.ltb_ge; lia. }
  unfold bind at 1. unfold User_username_exists at 1. unfold gets at 1.
  rewrite Hu.
  unfold bind at 1. unfold User_email_exists at 1. unfold gets at 1.
  rewrite He. reflexivity.
Qed.

(** Every way [register_post] can go. *)
Lemma register_post_cases u e p g w :
  (exists text, register_post u e p g w = rejected (lit "register") text w /\
                ~ checks_pass u e g w)
  \/ (checks_pass u e g w /\
      register_post u e p g w = register_create u e p g w).
Proof.
  destruct (validate_email e) eqn:Hv.
  2:{ left. eexists. split.
      - unfold register_post. rewrite Hv. apply reject_register.
      - intros (H & _). congruence. }
  destruct g as [|c g].
  { left. eexists. split.
    - unfold register_post. rewrite Hv. apply reject_register.
    - intros (_ & H & _). congruence. }
  destruct ((length (split_comma (c :: g)) <? 4)%nat
            || (6 <? length (split_comma (c :: g)))%nat) eqn:Hl.
  { left. eexists. split.
    - unfold register_post. rewrite Hv. cbn [truthy negb]. rewrite Hl.
      apply reject_register.
    - intros (_ & _ & H & _). apply orb_true_iff in Hl.
      destruct Hl as [Hl|Hl]; apply Nat.ltb_lt in Hl; lia. }
  apply orb_false_iff in Hl. destruct Hl as [Hl1 Hl2].
  apply Nat.ltb_ge in Hl1, Hl2.
  destruct (existsb (fun x => str_eqb (username x) u) (users w)) eqn:Hu.
  { left. eexists. split.
    - unfold register_post. rewrite Hv. cbn [truthy negb].
      replace ((length (split_comma (c :: g)) <? 4)%nat
               || (6 <? length (split_comma (c :: g)))%nat) with false.
      2:{ symmetry. apply orb_false_iff. split; apply Nat.ltb_ge; lia. }
      unfold bind at 1. unfold User_username_exists at 1. unfold gets at 1.
      rewrite Hu. apply reject_register.
    - intros (_ & _ & _ & H & _). congruence. }
  destruct (existsb (fun x => str_eqb (email x) e) (users w)) eqn:He.
  { left. eexists. split.
    - unfold register_post. rewrite Hv. cbn [truthy negb].
      replace ((length (split_comma (c :: g)) <? 4)%nat
               || (6 <? length (split_comma (c :: g)))%nat) with false.
      2:{ symmetry. apply orb_false_iff. split; apply Nat.ltb_ge; lia. }
      unfold bind at 1. unfold User_username_exists at 1. unfold gets at 1.
      rewrite Hu.
      unfold bind at 1. unfold User_email_exists at 1. unfold gets at 1.
      rewrite He. apply reject_register.
    - intros (_ & _ & _ & _ & H). congruence. }
  right.
  assert (Hc : checks_pass u e (c :: g) w).
  { repeat split; try assumption; try discriminate. }
  split; [exact Hc | now apply register_post_pass].
Qed.

(** *** Login: the part after the form fields are read *)

Lemma login_is_login_post request u p w :
  posted request [(lit "username", u); (lit "password", p)] ->
  login request w
  = login_post u p (POST_get request (lit "graphical_password") (lit "")) w.
Proof.
  intros [Hm Hf].
  inversion Hf as [|? ? Hu Hf1]; subst. inversion Hf1 as [|? ? Hp _]; subst.
  cbn [fst snd] in *.
  unfold login. rewrite Hm.
  change (str_eqb (lit "POST") (lit "POST")) with true. cbv iota.
  unfold POST_getitem. rewrite Hu, Hp.
  reflexivity.
Qed.

(** The queries of the login never change the world. *)
Lemma authenticate_world u p w :
  world_of (authenticate u p w) = w.
Proof.
  unfold authenticate, bind, gets, ret, raise.
  destruct (filter _ _) as [|x [|y l]]; try reflexivity.
  destruct (_ && _); reflexivity.
Qed.

Lemma GraphicalPassword_get_world user w :
  world_of (GraphicalPassword_get user w) = w.
Proof.
  unfold GraphicalPassword_get, bind, gets, ret, raise.
  destruct (filter _ _) as [|x [|y l]]; reflexivity.
Qed.

Lemma login_post_missing u p w :
  login_post u p [] w
  = rejected (lit "login") (lit "Please select your graphical password") w.
Proof. reflexivity. Qed.

Lemma login_post_invalid_credentials u p g w :
  g <> [] ->
  authenticate u p w = Return None w ->
  login_post u p g w
  = rejected (lit "login") (lit "Invalid username or password") w.
Proof.
  intros Hg Ha. destruct g as [|c g]; [congruence|].
  unfold login_post. cbn [truthy negb].
  rewrite (bind_Return _ _ _ _ _ Ha). apply reject_login.
Qed.

Lemma login_post_not_configured u p g w user :
  g <> [] ->
  authenticate u p w = Return (Some user) w ->
  GraphicalPassword_get user w = Return None w ->
  login_post u p g w
  = rejected (lit "login") (lit "Graphical password not set for this user") w.
Proof.
  intros Hg Ha Hget. destruct g as [|c g]; [congruence|].
  unfold login_post. cbn [truthy negb].
  rewrite (bind_Return _ _ _ _ _ Ha). cbv beta iota.
  rewrite (bind_Return _ _ _ _ _ Hget). apply reject_login.
Qed.

Lemma login_post_invalid_graphical u p g w user gp h :
  g <> [] ->
  authenticate u p w = Return (Some user) w ->
  GraphicalPassword_get user w = Return (Some gp) w ->
  hash_image_sequence g (salt gp) = Some h ->
  h <> image_sequence_hash gp ->
  login_post u p g w
  = rejected (lit "login") (lit "Invalid graphical password") w.
Proof.
  intros Hg Ha Hget Hh Hne. destruct g as [|c g]; [congruence|].
  unfold login_post. cbn [truthy negb].
  rewrite (bind_Return _ _ _ _ _ Ha). cbv beta iota.
  rewrite (bind_Return _ _ _ _ _ Hget). cbv beta iota.
  unfold bind at 1. unfold hash_image_sequence_M at 1. rewrite Hh.
  apply str_eqb_neq in Hne. rewrite Hne. apply reject_login.
Qed.

Lemma login_post_unencodable u p g w user gp :
  g <> [] ->
  authenticate u p w = Return (Some user) w ->
  GraphicalPassword_get user w = Return (Some gp) w ->
  hash_image_sequence g (salt gp) = None ->
  login_post u p g w = Raise UnicodeEncodeError w.
Proof.
  intros Hg Ha Hget Hh. destruct g as [|c g]; [congruence|].
  unfold login_post. cbn [truthy negb].
  rewrite (bind_Return _ _ _ _ _ Ha). cbv beta iota.
  rewrite (bind_Return _ _ _ _ _ Hget). cbv beta iota.
  unfold bind at 1. unfold hash_image_sequence_M at 1. rewrite Hh.
  reflexivity.
Qed.

Lemma login_post_granted u p g w user gp :
  g <> [] ->
  authenticate u p w = Return (Some user) w ->
  GraphicalPassword_get user w = Return (Some gp) w ->
  hash_image_sequence g (salt gp) = Some (image_sequence_hash gp) ->
  login_post u p g w =
  if hd false (db_faults w)
  then Raise DatabaseError (set_db_faults (tl (db_faults w)) w)
  else Return (HttpResponseRedirect (lit "/")) (logged_in user u w).
Proof.
  intros Hg Ha Hget Hh. destruct g as [|c g]; [congruence|].
  unfold login_post. cbn [truthy negb].
  rewrite (bind_Return _ _ _ _ _ Ha). cbv beta iota.
  rewrite (bind_Return _ _ _ _ _ Hget). cbv beta iota.
  unfold bind at 1. unfold hash_image_sequence_M at 1. rewrite Hh.
  rewrite str_eqb_refl.
  unfold auth_login, db_write, bind, gets, modify.
  destruct (hd false (db_faults w)); reflexivity.
Qed.

(** Every way [login_post] can go. *)
Lemma login_post_cases u p g w :
  (exists text, login_post u p g w = rejected (lit "login") text w)
  \/ (exists e, login_post u p g w = Raise e w)
  \/ (exists user gp,
        g <> [] /\
        authenticate u p w = Return (Some user) w /\
        GraphicalPassword_get user w = Return (Some gp) w /\
        hash_image_sequence g (salt gp) = Some (image_sequence_hash gp) /\
        login_post u p g w =
        if hd false (db_faults w)
        then Raise DatabaseError (set_db_faults (tl (db_faults w)) w)
        else Return (HttpResponseRedirect (lit "/")) (logged_in user u w)).
Proof.
  destruct g as [|c g].
  { left. eexists. apply login_post_missing. }
  assert (Hg : c :: g <> []) by discriminate.
  pose proof (authenticate_world u p w) as Ha.
  destruct (authenticate u p w) as [[user|] w0|e w0] eqn:Ea;
    cbn [world_of] in Ha; subst w0.
  2:{ left. eexists. now apply login_post_invalid_credentials. }
  2:{ right. left. exists e. unfold login_post. cbn [truthy negb].
      now rewrite (bind_Raise _ _ _ _ _ Ea). }
  pose proof (GraphicalPassword_get_world user w) as Hget.
  destruct (GraphicalPassword_get user w) as [[gp|] w0|e w0] eqn:Eg;
    cbn [world_of] in Hget; subst w0.
  2:{ left. eexists. eapply login_post_not_configured; eassumption. }
  2:{ right. left. exists e. unfold login_post. cbn [truthy negb].
      rewrite (bind_Return _ _ _ _ _ Ea). cbv beta iota.
      now rewrite (bind_Raise _ _ _ _ _ Eg). }
  destruct (hash_image_sequence (c :: g) (salt gp)) as [h|] eqn:Eh.
  2:{ right. left. eexists. eapply login_post_unencodable; eassumption. }
  destruct (str_eq_dec h (image_sequence_hash gp)) as [->|Hne].
  - right. right. exists user, gp. repeat split; try assumption.
    eapply login_post_granted; eassumption.
  - left. eexists. eapply login_post_invalid_graphical; eassumption.
Qed.

(** *** The store and its constraints *)

Lemma saved_fresh user us :
  Forall (fun x => user_id x < user_id user) us ->
  saved user (us ++ [user]) = us ++ [user].
Proof.
  intros H. unfold saved. rewrite map_app. cbn [map].
  rewrite Z.eqb_refl. f_equal.
  induction H as [|x us Hx _ IH]; [reflexivity|].
  cbn [map]. rewrite IH. replace (user_id x =? user_id user) with false.
  - reflexivity.
  - symmetry. apply Z.eqb_neq. lia.
Qed.

Lemma touched_usernames user now us :
  map username (touched user now us) = map username us.
Proof.
  unfold touched. rewrite map_map. apply map_ext. intros x.
  destruct (user_id x =? user_id user); reflexivity.
Qed.

Lemma touched_ids user now us :
  map user_id (touched user now us) = map user_id us.
Proof.
  unfold touched. rewrite map_map. apply map_ext. intros x.
  destruct (user_id x =? user_id user); reflexivity.
Qed.

Lemma existsb_false_filter {A} (f : A -> bool) (l : list A) :
  existsb f l = false -> filter f l = [].
Proof.
  induction l as [|x l IH]; [reflexivity|]. cbn.
  destruct (f x); cbn; [discriminate | exact IH].
Qed.

Lemma filter_none {A} (f : A -> bool) (l : list A) :
  (forall x, In x l -> f x = false) -> filter f l = [].
Proof.
  intros H. apply existsb_false_filter.
  destruct (existsb f l) eqn:E; [|reflexivity].
  apply existsb_exists in E. destruct E as (x & Hx & Hf).
  rewrite (H x Hx) in Hf. discriminate.
Qed.



(** What the primary check answers, on a consistent store. *)
Lemma authenticate_unknown u p w :
  (forall x, In x (users w) -> username x <> u) ->
  authenticate u p w = Return None w.
Proof.
  intros H. unfold authenticate, bind, gets.
  rewrite filter_none; [reflexivity|].
  intros x Hx. apply str_eqb_neq. now apply H.
Qed.



Lemma GraphicalPassword_get_none user w :
  (forall g, In g (graphical_passwords w) -> gp_user g <> user_id user) ->
  GraphicalPassword_get user w = Return None w.
Proof.
  intros H. unfold GraphicalPassword_get, bind, gets.
  rewrite filter_none; [reflexivity|].
  intros g Hg. apply Z.eqb_neq. now apply H.
Qed.

(** *** What a request can do to the two tables *)

Lemma rejected_same_tables form text w r :
  r = rejected form text w -> same_tables w (world_of r).
Proof. intros ->. repeat split. Qed.

Lemma register_request_cases request w :
  (world_of (register request w) = w /\
   forall resp w', register request w <> Return (HttpResponseRedirect resp) w')
  \/ exists u e p,
       posted request
         [(lit "username", u); (lit "email", e); (lit "password", p)].
Proof.
  destruct (str_eqb (method request) (lit "POST")) eqn:Hm.
  2:{ left. unfold register. rewrite Hm.
      split; [reflexivity | intros ? ? H; discriminate H]. }
  destruct (lookup (lit "username") (POST request)) as [u|] eqn:Hu.
  2:{ left. unfold register, bind, POST_getitem. rewrite Hm, Hu.
      split; [reflexivity | intros ? ? H; discriminate H]. }
  destruct (lookup (lit "email") (POST request)) as [e|] eqn:He.
  2:{ left. unfold register, bind, POST_getitem. rewrite Hm, Hu, He.
      split; [reflexivity | intros ? ? H; discriminate H]. }
  destruct (lookup (lit "password") (POST request)) as [p|] eqn:Hp.
  2:{ left. unfold register, bind, POST_getitem. rewrite Hm, Hu, He, Hp.
      split; [reflexivity | intros ? ? H; discriminate H]. }
  right. exists u, e, p. apply str_eqb_eq in Hm. split; [assumption|].
  repeat constructor; assumption.
Qed.

Lemma login_request_cases request w :
  (world_of (login request w) = w /\
   forall resp w', login request w <> Return (HttpResponseRedirect resp) w')
  \/ exists u p,
       posted request [(lit "username", u); (lit "password", p)].
Proof.
  destruct (str_eqb (method request) (lit "POST")) eqn:Hm.
  2:{ left. unfold login. rewrite Hm.
      split; [reflexivity | intros ? ? H; discriminate H]. }
  destruct (lookup (lit "username") (POST request)) as [u|] eqn:Hu.
  2:{ left. unfold login, bind, POST_getitem. rewrite Hm, Hu.
      split; [reflexivity | intros ? ? H; discriminate H]. }
  destruct (lookup (lit "password") (POST request)) as [p|] eqn:Hp.
  2:{ left. unfold login, bind, POST_getitem. rewrite Hm, Hu, Hp.
      split; [reflexivity | intros ? ? H; discriminate H]. }
  right. exists u, p. apply str_eqb_eq in Hm. split; [assumption|].
  repeat constructor; assumption.
Qed.

(** The credential table after a registration request, whatever the
    request and whatever the outcome: as before, or with the one new row. *)
Lemma register_credentials request w :
  graphical_passwords (world_of (register request w)) = graphical_passwords w
  \/ exists u e p h,
       posted request
         [(lit "username", u); (lit "email", e); (lit "password", p)] /\
       checks_pass u e (POST_get request (lit "graphical_password") (lit "")) w /\
       hash_image_sequence
         (POST_get request (lit "graphical_password") (lit "")) (new_salt w)
         = Some h /\
       register request w
         = Return (HttpResponseRedirect (lit "/login"))
                  (world_of (register request w)) /\
       graphical_passwords (world_of (register request w))
         = graphical_passwords w ++ [new_credential h w].
Proof.
  destruct (register_request_cases request w) as [[Hw _]|(u & e & p & Hp)].
  { left. now rewrite Hw. }
  rewrite (register_is_register_post _ u e p w Hp).
  set (g := POST_get request (lit "graphical_password") (lit "")).
  destruct (register_post_cases u e p g w) as [(text & -> & _)|[Hc ->]].
  { left. reflexivity. }
  destruct (register_create u e p g w) as [resp w'|ex w'] eqn:E.
  - apply register_create_Return in E.
    destruct E as (h & Hh & -> & _ & _ & _ & _ & Hg & _).
    right. exists u, e, p, h. cbn [world_of]. auto.
  - apply register_create_Raise in E. destruct E as (Hg & _).
    left. exact Hg.
Qed.

Lemma existsb_false_not_in (key : User -> str) (us : list User) (k : str) :
  existsb (fun x => str_eqb (key x) k) us = false -> ~ In k (map key us).
Proof.
  intros H Hin. apply in_map_iff in Hin. destruct Hin as (x & <- & Hx).
  assert (E : existsb (fun y => str_eqb (key y) (key x)) us = true).
  { apply existsb_exists. exists x. split; [assumption | apply str_eqb_refl]. }
  congruence.
Qed.

Lemma consistent_new_user w nu :
  consistent w ->
  user_id nu = next_user_id w ->
  existsb (fun x => str_eqb (username x) (username nu)) (users w) = false ->
  NoDup (map username (users w ++ [nu])) /\
  NoDup (map user_id (users w ++ [nu])) /\
  Forall (fun x => user_id x < next_user_id w + 1) (users w ++ [nu]).
Proof.
  intros (Hn & Hi & Hlt & _) Hid Hfresh.
  rewrite !map_app. cbn [map]. repeat split.
  - apply NoDup_app_remove_l with (l := []).
    cbn. apply Permutation_NoDup with (l := username nu :: map username (users w)).
    + apply Permutation_cons_append.
    + constructor; [now apply existsb_false_not_in | assumption].
  - apply Permutation_NoDup with (l := user_id nu :: map user_id (users w)).
    + apply Permutation_cons_append.
    + constructor; [|assumption].
      intros Hin. apply in_map_iff in Hin. destruct Hin as (x & E & Hx).
      rewrite Forall_forall in Hlt. specialize (Hlt x Hx). lia.
  - apply Forall_app. split.
    + eapply Forall_impl; [|exact Hlt]. cbv beta. intros; lia.
    + constructor; [lia | constructor].
Qed.

Lemma evolves_consistent w w' :
  consistent w -> evolves w w' -> consistent w'.
Proof.
  intros Hc Hev. pose proof Hc as (Hn & Hi & Hlt & Hg & Hfk).
  destruct Hev as [(Eu & Eg & En)
                  |user now Eu Eg En
                  |nu Eu Hid Hfresh En Eg
                  |nu cred Eu Hid Hfresh En Eg Hown]; unfold consistent.
  - rewrite Eu, Eg, En. exact Hc.
  - rewrite Eu, Eg, En, touched_usernames, touched_ids.
    repeat split; try assumption.
    unfold touched. apply Forall_map. eapply Forall_impl; [|exact Hlt].
    intros x Hx. cbv beta. destruct (user_id x =? user_id user); exact Hx.
  - rewrite Eu, Eg, En.
    destruct (consistent_new_user w nu Hc Hid Hfresh) as (H1 & H2 & H3).
    repeat split; try assumption.
    eapply Forall_impl; [|exact Hfk]. cbv beta. intros g Hin.
    rewrite map_app. apply in_or_app. now left.
  - rewrite Eu, Eg, En.
    destruct (consistent_new_user w nu Hc Hid Hfresh) as (H1 & H2 & H3).
    repeat split; try assumption.
    + rewrite map_app. cbn [map].
      apply Permutation_NoDup
        with (l := gp_user cred :: map gp_user (graphical_passwords w)).
      * apply Permutation_cons_append.
      * constructor; [|assumption].
        intros Hin. apply in_map_iff in Hin. destruct Hin as (g & E & Hgin).
        rewrite Forall_forall in Hfk. specialize (Hfk g Hgin).
        apply in_map_iff in Hfk. destruct Hfk as (x & Ex & Hx).
        rewrite Forall_forall in Hlt. specialize (Hlt x Hx). lia.
    + apply Forall_app. split.
      * eapply Forall_impl; [|exact Hfk]. cbv beta. intros g Hin.
        rewrite map_app. apply in_or_app. now left.
      * constructor; [|constructor]. rewrite Hown, map_app.
        apply in_or_app. right. now left.
Qed.

Lemma new_user_fresh u e p w :
  consistent w ->
  saved (new_user u e p w) (users w ++ [new_user u e p w])
  = users w ++ [new_user u e p w].
Proof. intros (_ & _ & Hlt & _). now apply saved_fresh. Qed.

Lemma register_evolves request w :
  consistent w -> evolves w (world_of (register request w)).
Proof.
  intros Hc.
  destruct (register_request_cases request w) as [[Hw _]|(u & e & p & Hp)].
  { rewrite Hw. apply ev_same. repeat split. }
  rewrite (register_is_register_post _ u e p w Hp).
  set (g := POST_get request (lit "graphical_password") (lit "")).
  destruct (register_post_cases u e p g w) as [(text & -> & _)|[_ ->]].
  { apply ev_same. repeat split. }
  destruct (register_create u e p g w) as [resp w'|ex w'] eqn:E; cbn [world_of].
  - apply register_create_Return in E.
    destruct E as (h & _ & _ & _ & Hfresh & _ & Hu & Hg & _ & Hn & _).
    rewrite new_user_fresh in Hu by assumption.
    apply ev_registered
      with (nu := new_user u e p w) (cred := new_credential h w);
      try assumption; reflexivity.
  - apply register_create_Raise in E.
    destruct E as (Hg & _ & [(Hu & Hn & _)|(Hu & Hn & _ & _ & Hfresh & _)]).
    + apply ev_same. repeat split; assumption.
    + rewrite new_user_fresh in Hu by assumption.
      apply ev_user with (nu := new_user u e p w); try assumption;
        [|reflexivity].
      destruct Hu as [Hu|Hu]; exact Hu.
Qed.

Lemma login_evolves request w : evolves w (world_of (login request w)).
Proof.
  destruct (login_request_cases request w) as [[Hw _]|(u & p & Hp)].
  { rewrite Hw. apply ev_same. repeat split. }
  rewrite (login_is_login_post _ u p w Hp).
  set (g := POST_get request (lit "graphical_password") (lit "")).
  destruct (login_post_cases u p g w)
    as [(text & ->)|[(e & ->)|(user & gp & _ & _ & _ & _ & ->)]].
  - apply ev_same. repeat split.
  - apply ev_same. repeat split.
  - destruct (hd false (db_faults w)).
    + apply ev_same. repeat split.
    + eapply ev_touched; reflexivity.
Qed.

Lemma logout_same_tables request w :
  same_tables w (world_of (logout request w)).
Proof.
  unfold logout, bind, gets. destruct (is_authenticated w); repeat split.
Qed.

Lemma view_evolves r request w :
  consistent w -> evolves w (world_of (view r request w)).
Proof.
  intros Hc. destruct r; cbn [view].
  - apply ev_same. repeat split.
  - now apply register_evolves.
  - apply login_evolves.
  - apply ev_same. apply logout_same_tables.
  - apply ev_same. repeat split.
  - apply ev_same. repeat split.
Qed.

Lemma handle_evolves atomic r request w :
  consistent w -> evolves w (world_of (handle atomic r request w)).
Proof.
  intros Hc. pose proof (view_evolves r request w Hc) as Hev.
  unfold handle. destruct (view r request w) as [resp w'|e w']; [exact Hev|].
  destruct atomic; [|exact Hev].
  apply ev_same. repeat split.
Qed.


(** *** Salts and digests *)

Lemma new_salt_octets w :
  exists octets, length octets = 16%nat /\ Forall octet octets /\
                 new_salt w = hex octets.
Proof.
  unfold new_salt. eexists. split; [|split; [|reflexivity]].
  - now rewrite length_map, length_seq.
  - apply Forall_map. apply Forall_forall. intros i _.
    apply Z.mod_pos_bound. lia.
Qed.

Lemma new_salt_length w : length (new_salt w) = 32%nat.
Proof.
  destruct (new_salt_octets w) as (b & Hl & _ & ->).
  rewrite hex_length, Hl. reflexivity.
Qed.

Lemma new_salt_lower w : forallb is_lower_hex (new_salt w) = true.
Proof.
  destruct (new_salt_octets w) as (b & _ & Ho & ->). now apply hex_lower.
Qed.

Lemma hash_image_sequence_total sequence slt :
  forallb scalar sequence = true -> forallb scalar slt = true ->
  exists b, encode (sequence ++ slt) = Some b /\
            hash_image_sequence sequence slt = Some (SHA256.hexdigest b).
Proof.
  intros H1 H2.
  assert (H : forallb scalar (sequence ++ slt) = true).
  { rewrite forallb_app, H1, H2. reflexivity. }
  apply encode_scalar in H. destruct H as [b Hb].
  exists b. split; [exact Hb|]. unfold hash_image_sequence. now rewrite Hb.
Qed.

Lemma hash_image_sequence_digest sequence slt h :
  hash_image_sequence sequence slt = Some h ->
  length h = 64%nat /\ forallb is_lower_hex h = true.
Proof.
  unfold hash_image_sequence. destruct (encode (sequence ++ slt)); [|discriminate].
  intros [= <-]. split.
  - apply SHA256Facts.hexdigest_length.
  - apply SHA256Facts.hexdigest_lower.
Qed.

(** *** Sufficient conditions for a registration to go through *)

Lemma no_fault_hd n w : no_fault (S n) w -> hd false (db_faults w) = false.
Proof.
  unfold no_fault. destruct (db_faults w) as [|b fs]; [reflexivity|].
  cbn. intros H. now inversion H.
Qed.

Lemma no_fault_tl n (fs : list bool) :
  Forall (fun b => b = false) (firstn (S n) fs) ->
  Forall (fun b => b = false) (firstn n (tl fs)).
Proof.
  destruct fs as [|b fs]; cbn.
  - intros _. destruct n; constructor.
  - intros H. now inversion H.
Qed.

Lemma register_create_succeeds u e p g w :
  consistent w ->
  u <> [] ->
  no_fault 3 w ->
  existsb (fun x => str_eqb (username x) (normalize_username u)) (users w)
    = false ->
  forallb scalar g = true ->
  exists w', register_create u e p g w
             = Return (HttpResponseRedirect (lit "/login")) w'.
Proof.
  intros Hc Hu Hf Hfresh Hg.
  destruct (register_create u e p g w) as [resp w'|ex w'] eqn:E.
  - apply register_create_Return in E. destruct E as (h & _ & -> & _).
    now exists w'.
  - exfalso. apply register_create_Raise in E.
    pose proof (no_fault_hd _ _ Hf) as F1.
    pose proof (no_fault_tl _ _ Hf) as Hf2.
    pose proof (no_fault_tl _ _ Hf2) as Hf3.
    assert (F2 : hd false (tl (db_faults w)) = false).
    { destruct (tl (db_faults w)) as [|b fs]; [reflexivity|].
      cbn in Hf2. now inversion Hf2. }
    assert (F3 : hd false (tl (tl (db_faults w))) = false).
    { destruct (tl (tl (db_faults w))) as [|b fs]; [reflexivity|].
      cbn in Hf3. now inversion Hf3. }
    destruct E as (_ & _ & [(_ & _ & [H|[H|H]])|(_ & _ & _ & _ & _ & [H|[H|[H|H]]])]);
      try congruence.
    + destruct (hash_image_sequence_total g (new_salt w) Hg) as (b & _ & Hh).
      * apply forallb_lower_hex_scalar, new_salt_lower.
      * congruence.
    + destruct Hc as (_ & _ & Hlt & _ & Hfk).
      apply existsb_exists in H. destruct H as (x & Hx & Ex).
      apply Z.eqb_eq in Ex.
      rewrite Forall_forall in Hfk. specialize (Hfk x Hx).
      apply in_map_iff in Hfk. destruct Hfk as (y & Ey & Hy).
      rewrite Forall_forall in Hlt. specialize (Hlt y Hy). lia.
Qed.

End WithFramework.
End ViewFacts.

(* ================================================================== *)
(** ** Counting digests *)
(* ================================================================== *)

Module Counting.
Import Bits.

Lemma bitlists_length (n : nat) : length (bitlists n) = (2 ^ n)%nat.
Proof.
  induction n as [|n IH]; [reflexivity|].
  cbn [bitlists]. rewrite length_app, !length_map, IH.
  rewrite Nat.pow_succ_r'. lia.
Qed.

Lemma bitlists_complete (n : nat) (x : list bool) :
  length x = n -> In x (bitlists n).
Proof.
  revert x. induction n as [|n IH]; intros [|b x] H; try discriminate.
  - now left.
  - cbn [bitlists]. injection H as H. apply in_or_app.
    destruct b; [left|right]; apply in_map; now apply IH.
Qed.

Lemma bitlists_sound (n : nat) (x : list bool) :
  In x (bitlists n) -> length x = n.
Proof.
  revert x. induction n as [|n IH]; intros x H.
  - destruct H as [<-|[]]. reflexivity.
  - cbn [bitlists] in H. apply in_app_or in H.
    destruct H as [H|H]; apply in_map_iff in H; destruct H as (y & <- & Hy);
      cbn; f_equal; now apply IH.
Qed.

Lemma bitlists_NoDup (n : nat) : NoDup (bitlists n).
Proof.
  induction n as [|n IH]; cbn [bitlists].
  - constructor; [intros [] | constructor].
  - apply NoDup_app.
    + apply Finite.Injective_map_NoDup; [|exact IH]. intros a b [= E]. exact E.
    + apply Finite.Injective_map_NoDup; [|exact IH]. intros a b [= E]. exact E.
    + intros x H1 H2. apply in_map_iff in H1, H2.
      destruct H1 as (a & <- & _), H2 as (b & E & _). discriminate E.
Qed.

(** A list without repetition either keeps that property under [f] or holds
    two different elements that [f] sends to the same value. *)
Lemma collision_or_NoDup {A B : Type}
  (eq_dec : forall a b : B, {a = b} + {a <> b}) (f : A -> B) (l : list A) :
  NoDup l ->
  (exists x y, In x l /\ In y l /\ x <> y /\ f x = f y) \/ NoDup (map f l).
Proof.
  induction 1 as [|a l Ha Hl IH].
  - right. constructor.
  - destruct IH as [(x & y & Hx & Hy & Hne & E)|IH].
    { left. exists x, y. repeat split; try assumption; now right. }
    destruct (in_dec eq_dec (f a) (map f l)) as [Hin|Hnin].
    + left. apply in_map_iff in Hin. destruct Hin as (y & E & Hy).
      exists a, y. repeat split; [now left | now right | | now symmetry].
      intros ->. contradiction.
    + right. now constructor.
Qed.

(** The pigeonhole principle for bit strings: a function from [n+1] bits to
    [n] bits sends two different inputs to the same output. *)
Lemma pigeonhole (n : nat) (f : list bool -> list bool) :
  (forall x, length x = S n -> length (f x) = n) ->
  exists x y, length x = S n /\ length y = S n /\ x <> y /\ f x = f y.
Proof.
  intros Hf.
  destruct (collision_or_NoDup (list_eq_dec Bool.bool_dec) f
              (bitlists (S n)) (bitlists_NoDup (S n)))
    as [(x & y & Hx & Hy & Hne & E)|Hnd].
  - exists x, y. repeat split; try assumption; now apply bitlists_sound.
  - exfalso.
    assert (Hincl : incl (map f (bitlists (S n))) (bitlists n)).
    { intros z Hz. apply in_map_iff in Hz. destruct Hz as (x & <- & Hx).
      apply bitlists_complete, Hf. now apply bitlists_sound. }
    pose proof (NoDup_incl_length Hnd Hincl) as Hle.
    rewrite length_map, !bitlists_length, Nat.pow_succ_r' in Hle.
    pose proof (Nat.pow_nonzero 2 n). lia.
Qed.

End Counting.

(* ================================================================== *)
(** ** The digest has 256 bits *)
(* ================================================================== *)

Module DigestBits.
Import Py PyFacts Bits.

Lemma add32_word (a b : Z) : word (SHA256.add32 a b).
Proof. apply Z.mod_pos_bound. lia. Qed.

Lemma compress_words (h : SHA256.regs) (block : list Z) :
  words (SHA256.compress h block).
Proof. repeat constructor; apply add32_word. Qed.

Lemma blocks_words (n : nat) (h : SHA256.regs) (b : list Z) :
  words h -> words (SHA256.blocks n h b).
Proof.
  revert h b. induction n as [|n IH]; intros h b Hh; [exact Hh|].
  cbn [SHA256.blocks]. apply IH, compress_words.
Qed.

Lemma state_words (msg : list Z) : words (SHA256.state msg).
Proof.
  apply blocks_words. repeat constructor; unfold word; cbn; lia.
Qed.

Lemma bits256_length (s : SHA256.regs) : length (bits256 s) = 256%nat.
Proof. reflexivity. Qed.

Lemma bits32_inj (x y : Z) : word x -> word y -> bits32 x = bits32 y -> x = y.
Proof.
  unfold word, bits32. intros Hx Hy E. apply Z.bits_inj'. intros n Hn.
  destruct (Z.lt_ge_cases n 32) as [Hlt|Hge].
  - pose proof (ext_in_map E (Z.to_nat n)) as H. cbv beta in H.
    rewrite Z2Nat.id in H by assumption. apply H.
    apply in_seq. lia.
  - rewrite <- (Z.mod_small x 4294967296), <- (Z.mod_small y 4294967296)
      by assumption.
    change 4294967296 with (2 ^ 32).
    rewrite !Z.mod_pow2_bits_high by lia. reflexivity.
Qed.

Lemma app_eq_same_length {A} (a b c d : list A) :
  length a = length c -> a ++ b = c ++ d -> a = c /\ b = d.
Proof.
  revert c. induction a as [|x a IH]; intros [|y c] Hl E; try discriminate.
  - auto.
  - cbn in *. injection E as -> E. injection Hl as Hl.
    destruct (IH c Hl E) as [-> ->]. auto.
Qed.

Lemma bits256_inj (s t : SHA256.regs) :
  words s -> words t -> bits256 s = bits256 t -> s = t.
Proof.
  destruct s as [a b c d e f g h], t as [a' b' c' d' e' f' g' h'].
  unfold words, bits256. cbn [SHA256.regs_words flat_map SHA256.ra SHA256.rb
    SHA256.rc SHA256.rd SHA256.re SHA256.rf SHA256.rg SHA256.rh].
  intros Hs Ht E. unfold SHA256.regs_words in Hs, Ht. cbn in Hs, Ht.
  repeat match goal with
         | H : Forall _ (_ :: _) |- _ => inversion H; subst; clear H
         end.
  repeat match goal with
         | H : bits32 _ ++ _ = bits32 _ ++ _ |- _ =>
             apply app_eq_same_length in H; [destruct H as [? H] | reflexivity]
         end.
  f_equal; now apply bits32_inj.
Qed.

(** Two messages with the same 256 bits have the same digest. *)
Lemma bits256_hexdigest (m1 m2 : list Z) :
  bits256 (SHA256.state m1) = bits256 (SHA256.state m2) ->
  SHA256.hexdigest m1 = SHA256.hexdigest m2.
Proof.
  intros E. apply bits256_inj in E; try apply state_words.
  unfold SHA256.hexdigest, SHA256.digest. now rewrite E.
Qed.

End DigestBits.

(* ================================================================== *)
(** ** The specification, claim by claim *)
(* ================================================================== *)

Module Spec.
Import Py PyFacts Django Views Steps Bits Statements ViewFacts.

(** *** 4.1 Sequence canonicalisation and hashing *)

Lemma hexchar_alphabet (d : Z) :
  0 <= d < 16 -> hexchar d = nth (Z.to_nat d) (lit "0123456789abcdef") 0.
Proof.
  intros H.
  assert (E : d = 0 \/ d = 1 \/ d = 2 \/ d = 3 \/ d = 4 \/ d = 5 \/ d = 6
              \/ d = 7 \/ d = 8 \/ d = 9 \/ d = 10 \/ d = 11 \/ d = 12
              \/ d = 13 \/ d = 14 \/ d = 15) by lia.
  repeat (destruct E as [->|E]; [reflexivity|]). subst. reflexivity.
Qed.

Lemma hex_lowercase_hexadecimal (b : bytes) :
  Forall octet b -> hex b = lowercase_hexadecimal b.
Proof.
  induction 1 as [|x b Hx _ IH]; [reflexivity|].
  unfold octet in Hx. cbn [hex lowercase_hexadecimal flat_map app].
  rewrite <- !hexchar_alphabet.
  - f_equal. f_equal. exact IH.
  - apply Z.mod_pos_bound. lia.
  - split; [apply Z.div_pos; lia | apply Z.div_lt_upper_bound; lia].
Qed.

(** C1. For every sequence string and every salt, [hash_image_sequence] is
    the lowercase hexadecimal SHA-256 digest of the UTF-8 octets of the
    sequence with the salt appended. It is deterministic: the answer of the
    call is the same in any two worlds. It has no effect: the world after
    the call is the world before it. *)
Theorem hash_image_sequence_salted_sha256 (sequence slt : str) :
  hash_image_sequence sequence slt = salted_digest sequence slt /\
  (forall w1 w2,
      answer (hash_image_sequence_M sequence slt w1)
      = answer (hash_image_sequence_M sequence slt w2)) /\
  (forall w, world_of (hash_image_sequence_M sequence slt w) = w).
Proof.
  split; [|split].
  - unfold hash_image_sequence, salted_digest, SHA256.hexdigest.
    destruct (encode (sequence ++ slt)) as [b|]; [|reflexivity].
    now rewrite hex_lowercase_hexadecimal by apply SHA256Facts.digest_octets.
  - intros w1 w2. unfold hash_image_sequence_M.
    destruct (hash_image_sequence sequence slt); reflexivity.
  - intros w. unfold hash_image_sequence_M.
    destruct (hash_image_sequence sequence slt); reflexivity.
Qed.

(** The digest of the specification's example sequence under a salt of the
    registered shape, as computed by any SHA-256 implementation. *)
Example hash_image_sequence_example :
  hash_image_sequence (lit "x.png,y.png,z.png,w.png")
                      (lit "0b30557a9fc4e90e33587da2c7ec1136")
  = Some (lit "8b67a8539b1d9849b3392f4e659a494378986a242392e79381a4022c6f667920").
Proof. vm_compute. reflexivity. Qed.

(** *** 6 The image catalog *)

(** C10. The catalog [register] renders and the catalog [login] renders are
    the same list, element for element and in the same order, of 50 tokens,
    although the source declares it twice. *)
Theorem image_catalog_shared :
  register_images = login_images /\
  length register_images = 50%nat /\
  forall (fw : Framework) request w,
    str_eqb (method request) (lit "POST") = false ->
    exists catalog,
      register request w
      = Return (HttpResponseRender (lit "accounts/register.html")
                                   [(lit "images", catalog)]) w /\
      login request w
      = Return (HttpResponseRender (lit "accounts/login.html")
                                   [(lit "images", catalog)]) w.
Proof.
  split; [reflexivity|]. split; [reflexivity|].
  intros fw request w Hm. exists register_images.
  unfold register, login. rewrite Hm. split; reflexivity.
Qed.

Lemma image_catalog_shared_witness :
  str_eqb (method (mkRequest (lit "GET") [] "/")) (lit "POST") = false /\
  exists catalog,
    @register Sample.framework (mkRequest (lit "GET") [] "/") Sample.empty_world
    = Return (HttpResponseRender (lit "accounts/register.html")
                                 [(lit "images", catalog)]) Sample.empty_world /\
    @login Sample.framework (mkRequest (lit "GET") [] "/") Sample.empty_world
    = Return (HttpResponseRender (lit "accounts/login.html")
                                 [(lit "images", catalog)]) Sample.empty_world.
Proof.
  split; [reflexivity|].
  apply (proj2 (proj2 image_catalog_shared)). reflexivity.
Defined.

(** *** 3 The credential record *)

(** C8. Every credential row a registration request adds to the table
    stores a salt of exactly 32 lowercase hexadecimal characters, the
    hexadecimal form of 16 random octets, and a hash of exactly 64 lowercase
    hexadecimal characters, the SHA-256 digest of the submitted sequence
    string with that salt appended. *)
Theorem registered_credential_shape
  (fw : Framework) (request : HttpRequest) (w : World) (g : GraphicalPassword) :
  In g (graphical_passwords (world_of (register request w))) ->
  ~ In g (graphical_passwords w) ->
  credential_shape (POST_get request (lit "graphical_password") (lit "")) g.
Proof.
  intros Hin Hnew. unfold credential_shape.
  destruct (register_credentials request w)
    as [E|(u & e & p & h & _ & _ & Hh & _ & E)];
    rewrite E in Hin; [contradiction|].
  apply in_app_or in Hin. destruct Hin as [Hin|[<-|[]]]; [contradiction|].
  cbn [salt image_sequence_hash new_credential].
  split; [|split; [|split]].
  - split; [apply new_salt_length|]. split; [apply new_salt_lower|].
    apply new_salt_octets.
  - now apply hash_image_sequence_digest in Hh.
  - now apply hash_image_sequence_digest in Hh.
  - unfold hash_image_sequence in Hh.
    destruct (encode _) as [b|]; [|discriminate].
    injection Hh as <-. exists b. split; reflexivity.
Qed.

Lemma registered_credential_shape_witness :
  let request :=
    Sample.register_form (lit "alice") (lit "alice@example.com") (lit "pw")
                         (lit "x.png,y.png,z.png,w.png") in
  let g :=
    mkGraphicalPassword 1 1
      (lit "8b67a8539b1d9849b3392f4e659a494378986a242392e79381a4022c6f667920")
      (lit "0b30557a9fc4e90e33587da2c7ec1136") 1700000000 1700000000 in
  In g (graphical_passwords
          (world_of (@register Sample.framework request Sample.empty_world))) /\
  ~ In g (graphical_passwords Sample.empty_world) /\
  credential_shape (lit "x.png,y.png,z.png,w.png") g.
Proof.
  intros request g.
  assert (Hin : In g (graphical_passwords
                  (world_of (@register Sample.framework request
                                       Sample.empty_world)))).
  { vm_compute. left. reflexivity. }
  assert (Hnew : ~ In g (graphical_passwords Sample.empty_world)).
  { intros []. }
  split; [exact Hin|]. split; [exact Hnew|].
  exact (registered_credential_shape Sample.framework request
           Sample.empty_world g Hin Hnew).
Defined.

(** *** 4.2 Registration *)




Example register_two_tokens :
  register_tokens (lit "anonymity.png,bitcoin.png")
  = rejected (lit "register") InvalidSequenceLength Sample.empty_world.
Proof. reflexivity. Qed.

Example register_seven_tokens :
  register_tokens (lit "a.png,b.png,c.png,d.png,e.png,f.png,g.png")
  = rejected (lit "register") InvalidSequenceLength Sample.empty_world.
Proof. reflexivity. Qed.

Example register_four_five_six_tokens :
  answer (register_tokens (lit "a.png,b.png,c.png,d.png"))
    = inl (HttpResponseRedirect (lit "/login")) /\
  answer (register_tokens (lit "a.png,b.png,c.png,d.png,e.png"))
    = inl (HttpResponseRedirect (lit "/login")) /\
  answer (register_tokens (lit "a.png,b.png,c.png,d.png,e.png,f.png"))
    = inl (HttpResponseRedirect (lit "/login")).
Proof. repeat split; vm_compute; reflexivity. Qed.

(** *** 4.3 Login *)

(** C4. Login checks in this order, each failure a distinct message that
    returns to the login form and starts no session: the graphical sequence
    is absent or empty; the username and password do not authenticate; the
    authenticated user has no credential row; the digest of the submitted
    sequence under the stored salt differs from the stored hash. A session
    is established only when the four checks pass. *)
Theorem login_verification_order
  (fw : Framework) (request : HttpRequest) (u p : str) (w : World) :
  posted request [(lit "username", u); (lit "password", p)] ->
  verification_order fw request u p w.
Proof.
  intros Hp. unfold verification_order. cbv zeta.
  rewrite (login_is_login_post request u p w Hp).
  set (g := POST_get request (lit "graphical_password") (lit "")).
  repeat apply conj.
  - intros ->. apply login_post_missing.
  - intros. now apply login_post_invalid_credentials.
  - intros. eapply login_post_not_configured; eassumption.
  - intros. eapply login_post_invalid_graphical; eassumption.
  - intros user gp Hg Ha Hget Hh Hf.
    rewrite (login_post_granted u p g w user gp Hg Ha Hget Hh), Hf.
    split; reflexivity.
  - intros text ->. repeat split.
  - intros Hs.
    destruct (login_post_cases u p g w)
      as [(text & E)|[(e & E)|(user & gp & Hg & Ha & Hget & Hh & E)]];
      rewrite E in Hs |- *.
    + now contradiction Hs.
    + now contradiction Hs.
    + exists user, gp. repeat (split; [assumption|]).
      destruct (hd false (db_faults w)); [now contradiction Hs | reflexivity].
  - repeat (constructor;
            [intros H; vm_compute in H; intuition discriminate|]).
    constructor.
Qed.

Lemma login_verification_order_witness :
  let request := Sample.login_form (lit "alice") (lit "pw") alice_sequence in
  posted request [(lit "username", lit "alice"); (lit "password", lit "pw")] /\
  verification_order Sample.framework request (lit "alice") (lit "pw")
                     alice_world.
Proof.
  intros request.
  assert (Hp : posted request [(lit "username", lit "alice");
                               (lit "password", lit "pw")]).
  { split; [reflexivity | repeat constructor]. }
  split; [exact Hp|].
  exact (login_verification_order Sample.framework request _ _ alice_world Hp).
Defined.

Example login_same_sequence :
  answer (alice_login (lit "alice") (lit "pw") alice_sequence)
    = inl (HttpResponseRedirect (lit "/")) /\
  session (world_of (alice_login (lit "alice") (lit "pw") alice_sequence))
    = Some 1.
Proof. split; vm_compute; reflexivity. Qed.

Example login_reversed_sequence :
  alice_login (lit "alice") (lit "pw") (lit "w.png,z.png,y.png,x.png")
  = rejected (lit "login") InvalidGraphicalPassword alice_world.
Proof. vm_compute. reflexivity. Qed.

Example login_wrong_password :
  alice_login (lit "alice") (lit "wrong") alice_sequence
  = rejected (lit "login") InvalidCredentials alice_world.
Proof. vm_compute. reflexivity. Qed.

Example login_unknown_user :
  alice_login (lit "mallory") (lit "pw") alice_sequence
  = rejected (lit "login") InvalidCredentials alice_world.
Proof. vm_compute. reflexivity. Qed.

Example login_without_sequence :
  @login Sample.framework
     (Sample.post [(lit "username", lit "alice"); (lit "password", lit "pw")])
     alice_world
  = rejected (lit "login") MissingGraphicalPassword_login alice_world.
Proof. vm_compute. reflexivity. Qed.

Example login_not_configured :
  @login Sample.framework
     (Sample.login_form (lit "dave") (lit "pw") alice_sequence) bare_world
  = rejected (lit "login") CredentialNotConfigured bare_world.
Proof. vm_compute. reflexivity. Qed.

(** *** Round trip: registration, then login *)

Section RoundTrip.
Context {fw : Framework}.





End RoundTrip.





Example register_stores_normal_form :
  map username (users ligature_world) = [lit "fi"] /\
  answer (@login Sample.framework
            (Sample.login_form (lit "fi") (lit "pw") alice_sequence)
            ligature_world)
    = inl (HttpResponseRedirect (lit "/")) /\
  @login Sample.framework
     (Sample.login_form [64257] (lit "pw") alice_sequence) ligature_world
    = rejected (lit "login") InvalidCredentials ligature_world.
Proof. repeat split; vm_compute; reflexivity. Qed.

(** *** The length check counts fields, whatever they hold *)

Lemma commas_checks_pass (fw : Framework) u e s w :
  s <> [] -> (3 <= commas s <= 5)%nat ->
  validate_email e = true ->
  existsb (fun x => str_eqb (username x) u) (users w) = false ->
  existsb (fun x => str_eqb (email x) e) (users w) = false ->
  checks_pass u e s w.
Proof.
  intros Hs Hn Hv Hu He. repeat split; try assumption;
    rewrite split_comma_length; lia.
Qed.

(** C9. The length check of registration counts the comma-separated fields
    of the raw submitted string and never looks into them: every non-empty
    string with 3 to 5 commas passes it, whatever its fields hold, and the
    registration then goes on to create the account and the credential. The
    string of three commas (four empty fields) registers, and so does a
    string of four tokens none of which is in the image catalog. *)
Theorem length_check_counts_fields : field_count_only.
Proof.
  unfold field_count_only.
  split; [|split; [|split; [|split; [|split; [|split]]]]].
  - intros s _ Hn. rewrite split_comma_length.
    apply orb_false_iff. split; apply Nat.ltb_ge; lia.
  - intros fw request u e p w Hs Hn Hp Hv Hu He.
    rewrite (register_is_register_post request u e p w Hp).
    apply register_post_pass. now apply commas_checks_pass.
  - intros fw request u e p w Hs Hn Hp Hv Hu He Hc Hne Hf Hfresh Hsc.
    rewrite (register_is_register_post request u e p w Hp).
    set (s := POST_get request (lit "graphical_password") (lit "")) in *.
    rewrite register_post_pass by now apply commas_checks_pass.
    destruct (register_create_succeeds u e p s w Hc Hne Hf Hfresh Hsc)
      as [w' E].
    pose proof (register_create_Return _ _ _ _ _ _ _ E)
      as (h & Hh & _ & _ & _ & _ & _ & Hg & _).
    exists w', h. repeat split; assumption.
  - vm_compute. repeat split; reflexivity.
  - reflexivity.
  - vm_compute. repeat split; reflexivity.
  - vm_compute. reflexivity.
Qed.

Lemma length_check_counts_fields_witness :
  lit ",,," <> [] /\
  (3 <= commas (lit ",,,") <= 5)%nat /\
  (length (split_comma (lit ",,,")) <? 4)%nat
  || (6 <? length (split_comma (lit ",,,")))%nat = false.
Proof.
  assert (H1 : lit ",,," <> []) by discriminate.
  assert (H2 : (3 <= commas (lit ",,,") <= 5)%nat) by (vm_compute; lia).
  split; [exact H1|]. split; [exact H2|].
  exact (proj1 length_check_counts_fields (lit ",,,") H1 H2).
Defined.

(** *** Credentials are written at registration and nowhere else *)

Lemma login_credentials (fw : Framework) request w :
  graphical_passwords (world_of (login request w)) = graphical_passwords w /\
  next_user_id (world_of (login request w)) = next_user_id w /\
  map username (users (world_of (login request w))) = map username (users w).
Proof.
  destruct (login_evolves request w)
    as [(Eu & Eg & En)|x now Eu Eg En|nu Eu _ _ En Eg|nu c Eu _ _ En Eg _].
  - rewrite Eu, Eg, En. auto.
  - rewrite Eu, Eg, En, touched_usernames. auto.
  - exfalso. destruct (login_request_cases request w) as [[Hw _]|(u & p & Hp)].
    + rewrite Hw in En. lia.
    + rewrite (login_is_login_post _ u p w Hp) in En.
      destruct (login_post_cases u p
                  (POST_get request (lit "graphical_password") (lit "")) w)
        as [(t & E)|[(e & E)|(user & gp & _ & _ & _ & _ & E)]];
        rewrite E in En; [cbn in En; lia | cbn in En; lia|].
      destruct (hd false (db_faults w)); cbn in En; lia.
  - exfalso. destruct (login_request_cases request w) as [[Hw _]|(u & p & Hp)].
    + rewrite Hw in En. lia.
    + rewrite (login_is_login_post _ u p w Hp) in En.
      destruct (login_post_cases u p
                  (POST_get request (lit "graphical_password") (lit "")) w)
        as [(t & E)|[(e & E)|(user & gp & _ & _ & _ & _ & E)]];
        rewrite E in En; [cbn in En; lia | cbn in En; lia|].
      destruct (hd false (db_faults w)); cbn in En; lia.
Qed.

(** One served request: the credential table keeps every row it had, in
    place and unchanged, and gains a row only from an accepted
    registration. *)
Lemma handle_credentials (fw : Framework) atomic r request w :
  graphical_passwords (world_of (handle atomic r request w))
    = graphical_passwords w
  \/ (r = Rregister /\
      exists cred,
        graphical_passwords (world_of (handle atomic r request w))
          = graphical_passwords w ++ [cred] /\
        answer (handle atomic r request w)
          = inl (HttpResponseRedirect (lit "/login"))).
Proof.
  assert (Hv : graphical_passwords (world_of (view r request w))
               = graphical_passwords w
               \/ (r = Rregister /\
                   exists cred,
                     graphical_passwords (world_of (view r request w))
                       = graphical_passwords w ++ [cred] /\
                     view r request w
                       = Return (HttpResponseRedirect (lit "/login"))
                                (world_of (view r request w)))).
  { destruct r; cbn [view]; try (left; reflexivity).
    - destruct (register_credentials request w)
        as [E|(u & e & p & h & _ & _ & _ & Er & E)]; [now left|].
      right. split; [reflexivity|]. eauto.
    - left. apply login_credentials.
    - left. apply logout_same_tables. }
  unfold handle.
  destruct Hv as [E|(-> & cred & E & Er)].
  - left. destruct (view r request w) as [resp w'|e w']; [exact E|].
    destruct atomic; [reflexivity | exact E].
  - right. split; [reflexivity|]. exists cred.
    cbn [view] in *. rewrite Er. cbn [world_of answer].
    rewrite Er in E. cbn [world_of] in E. auto.
Qed.

Lemma serve_credentials (fw : Framework) atomic trace w :
  exists added,
    graphical_passwords (serve atomic trace w)
    = graphical_passwords w ++ added.
Proof.
  revert w. induction trace as [|[r request] trace IH]; intros w.
  - exists []. cbn. now rewrite app_nil_r.
  - cbn [serve].
    destruct (IH (world_of (handle atomic r request w))) as [added E].
    destruct (handle_credentials fw atomic r request w)
      as [E1|(_ & cred & E1 & _)]; rewrite E1 in E.
    + now exists added.
    + exists (cred :: added). rewrite E, <- app_assoc. reflexivity.
Qed.

(** C7. The rows of the credential table, with their salt and hash, are
    left as they are by every login attempt, granted or not, and by every
    other view; a row is written once, by the registration that is accepted,
    and stays in place through any sequence of requests. Once the user is
    authenticated and the credential row found, what login answers is the
    verifier applied to the submitted sequence, the stored salt and the
    stored hash. *)
Theorem credentials_written_once (fw : Framework) (atomic : bool) :
  credentials_immutable fw atomic.
Proof.
  unfold credentials_immutable.
  split; [|split; [|split; [|split]]].
  - intros request w. apply login_credentials.
  - intros r request w Hr.
    destruct (handle_credentials fw atomic r request w) as [E|[E _]];
      [exact E | contradiction].
  - intros request w.
    destruct (handle_credentials fw atomic Rregister request w)
      as [E|(_ & cred & E)]; [now left | right; now exists cred].
  - intros trace w. apply serve_credentials.
  - intros request u p w user gp Hp Hg Ha Hget Hf.
    rewrite (login_is_login_post request u p w Hp).
    set (g := POST_get request (lit "graphical_password") (lit "")) in *.
    unfold verifier.
    destruct (hash_image_sequence g (salt gp)) as [h|] eqn:Hh.
    + destruct (str_eq_dec h (image_sequence_hash gp)) as [->|Hne].
      * rewrite str_eqb_refl.
        rewrite (login_post_granted u p g w user gp Hg Ha Hget Hh), Hf.
        reflexivity.
      * rewrite (proj2 (str_eqb_neq _ _) Hne).
        now rewrite (login_post_invalid_graphical u p g w user gp h).
    + now rewrite (login_post_unencodable u p g w user gp).
Qed.

Lemma credentials_written_once_witness :
  let request :=
    Sample.login_form (lit "alice") (lit "pw") (lit "w.png,z.png,y.png,x.png") in
  let user := mkUser 1 (lit "alice") (lit "alice@example.com")
                     (lit "plain$pw") true None in
  let gp := mkGraphicalPassword 1 1
      (lit "8b67a8539b1d9849b3392f4e659a494378986a242392e79381a4022c6f667920")
      (lit "0b30557a9fc4e90e33587da2c7ec1136") 1700000000 1700000000 in
  posted request [(lit "username", lit "alice"); (lit "password", lit "pw")] /\
  @authenticate Sample.framework (lit "alice") (lit "pw") alice_world
    = Return (Some user) alice_world /\
  @GraphicalPassword_get user alice_world = Return (Some gp) alice_world /\
  answer (@login Sample.framework request alice_world)
    = inl (HttpResponseRedirect (lit "/login")) /\
  graphical_passwords (world_of (@login Sample.framework request alice_world))
    = [gp].
Proof.
  intros request user gp.
  assert (Hp : posted request [(lit "username", lit "alice");
                               (lit "password", lit "pw")]).
  { split; [reflexivity | repeat constructor]. }
  assert (Ha : @authenticate Sample.framework (lit "alice") (lit "pw")
                 alice_world = Return (Some user) alice_world).
  { vm_compute. reflexivity. }
  assert (Hget : @GraphicalPassword_get user alice_world
                 = Return (Some gp) alice_world).
  { vm_compute. reflexivity. }
  pose proof (credentials_written_once Sample.framework false)
    as (Hlogin & _ & _ & _ & Hverify).
  split; [exact Hp|]. split; [exact Ha|]. split; [exact Hget|]. split.
  - rewrite (Hverify request _ _ alice_world user gp Hp); try assumption.
    + vm_compute. reflexivity.
    + discriminate.
    + reflexivity.
  - rewrite Hlogin. vm_compute. reflexivity.
Defined.

(** *** A registration that fails half way *)




(** *** Order sensitivity *)

Lemma pairs_inj (x y : list bool) : pairs x = pairs y -> x = y.
Proof.
  revert y. induction x as [|a x IH]; intros [|b y] E.
  - reflexivity.
  - destruct b; discriminate E.
  - destruct a; discriminate E.
  - destruct a, b; try discriminate E; injection E as E; f_equal; now apply IH.
Qed.

Lemma pairs_Permutation (x y : list bool) :
  length x = length y -> Permutation (pairs x) (pairs y).
Proof.
  revert y. induction x as [|a x IH]; intros [|b y] H; try discriminate.
  - constructor.
  - injection H as H. specialize (IH y H).
    destruct a, b; cbn [pairs].
    + now repeat constructor.
    + etransitivity; [apply perm_swap|]. now repeat constructor.
    + etransitivity; [apply perm_swap|]. now repeat constructor.
    + now repeat constructor.
Qed.

Lemma pairs_comma_free (x : list bool) : Forall comma_free (pairs x).
Proof.
  induction x as [|[] x IH]; cbn [pairs]; repeat constructor; try exact IH;
    unfold comma_free; intros [H|[]]; discriminate H.
Qed.

Lemma encode_ascii (s : str) : Forall ascii s -> encode s = Some s.
Proof.
  induction 1 as [|c s Hc _ IH]; [reflexivity|].
  unfold ascii in Hc. cbn [encode]. rewrite IH.
  unfold utf8_char, scalar.
  replace (0 <=? c) with true by (symmetry; apply Z.leb_le; lia).
  replace (c <=? 1114111) with true by (symmetry; apply Z.leb_le; lia).
  replace (55296 <=? c) with false by (symmetry; apply Z.leb_gt; lia).
  replace (c <? 128) with true by (symmetry; apply Z.ltb_lt; lia).
  reflexivity.
Qed.

Lemma join_comma_cons (t : str) (ts : list str) :
  join_comma (t :: ts) = match ts with [] => t | _ => t ++ 44 :: join_comma ts end.
Proof. destruct ts; reflexivity. Qed.

Lemma join_comma_ascii (tokens : list str) :
  Forall (Forall ascii) tokens -> Forall ascii (join_comma tokens).
Proof.
  induction 1 as [|t ts Ht _ IH]; [constructor|].
  rewrite join_comma_cons. destruct ts; [exact Ht|].
  apply Forall_app. split; [exact Ht|].
  constructor; [unfold ascii; lia | exact IH].
Qed.

Lemma pairs_ascii (x : list bool) : Forall (Forall ascii) (pairs x).
Proof.
  induction x as [|[] x IH]; cbn [pairs]; repeat constructor;
    try exact IH; unfold ascii; lia.
Qed.

Lemma family_hash (slt salt_octets : str) (x : list bool) :
  encode slt = Some salt_octets ->
  hash_image_sequence (join_comma (pairs x)) slt
  = Some (SHA256.hexdigest (join_comma (pairs x) ++ salt_octets)).
Proof.
  intros Hs. unfold hash_image_sequence.
  rewrite encode_app, Hs, encode_ascii; [reflexivity|].
  apply join_comma_ascii, pairs_ascii.
Qed.

(** Among the 2^257 sequences of 257 pairs there are two, in different
    order, with the same digest, since a digest has 256 bits: this holds
    under every salt that can be encoded. *)
Lemma colliding_permutations (slt : str) :
  forallb scalar slt = true ->
  exists seq1 seq2 : list str,
    Forall comma_free seq1 /\ Forall comma_free seq2 /\
    Permutation seq1 seq2 /\ seq1 <> seq2 /\
    join_comma seq1 <> join_comma seq2 /\
    hash_image_sequence (join_comma seq1) slt
    = hash_image_sequence (join_comma seq2) slt.
Proof.
  intros Hs. apply encode_scalar in Hs. destruct Hs as [so Hs].
  destruct (Counting.pigeonhole 256 (family_bits so))
    as (x & y & Hx & Hy & Hne & E).
  { intros x _. apply DigestBits.bits256_length. }
  assert (Hp : pairs x <> pairs y).
  { intros H. apply Hne. now apply pairs_inj. }
  exists (pairs x), (pairs y).
  split; [apply pairs_comma_free|]. split; [apply pairs_comma_free|].
  split; [apply pairs_Permutation; congruence|]. split; [exact Hp|]. split.
  - intros H. apply Hp. apply join_comma_inj; try apply pairs_comma_free;
      try assumption.
    + destruct x as [|[] x]; discriminate.
    + destruct y as [|[] y]; discriminate.
  - rewrite !(family_hash slt so) by assumption. f_equal.
    now apply DigestBits.bits256_hexdigest.
Qed.

(** On C2. A digest of 256 bits cannot tell all orders apart: under the
    salt used above (and under any other that has a UTF-8 form) two
    permutations of one token sequence, different in order and in canonical
    string, have the same digest. The counting argument names no such pair,
    and its sequences are longer than any that registration accepts. *)
Lemma order_sensitivity_fails : ~ order_sensitive.
Proof.
  intros H.
  destruct (colliding_permutations (lit "0b30557a9fc4e90e33587da2c7ec1136"))
    as (seq1 & seq2 & H1 & H2 & Hp & Hne & Hj & E); [reflexivity|].
  exact (H _ seq1 seq2 H1 H2 Hp Hne Hj E).
Qed.

(** On C2. The order is part of the hashed message: under one salt, two
    sequences of comma-free tokens that are permutations of each other and
    differ in order are joined into different canonical strings and hashed
    as different octet strings, so their digests are equal only if SHA-256
    collides on these two octet strings. For the sequence a,b,c,d and for
    the four catalog tokens of the test suite, the reversal hashes
    differently from the original under the salt
    0b30557a9fc4e90e33587da2c7ec1136. *)
Theorem order_sensitivity_up_to_collisions : order_changes_message.
Proof.
  unfold order_changes_message. split; [|split].
  - intros slt seq1 seq2 d1 d2 F1 F2 Hp Hne Hd1 Hd2.
    assert (N1 : seq1 <> []).
    { intros ->. apply Permutation_nil in Hp. congruence. }
    assert (N2 : seq2 <> []).
    { intros ->. apply Permutation_sym, Permutation_nil in Hp. congruence. }
    assert (Hj : join_comma seq1 <> join_comma seq2).
    { intros E. apply Hne. now apply join_comma_inj. }
    split; [exact Hj|].
    unfold hash_image_sequence in Hd1, Hd2.
    destruct (encode (join_comma seq1 ++ slt)) as [m1|] eqn:E1; [|discriminate].
    destruct (encode (join_comma seq2 ++ slt)) as [m2|] eqn:E2; [|discriminate].
    injection Hd1 as <-. injection Hd2 as <-.
    exists m1, m2. split; [reflexivity|]. split; [reflexivity|]. split.
    + intros ->. apply Hj.
      pose proof (encode_inj _ _ _ E1 E2) as E.
      now apply app_inv_tail in E.
    + unfold SHA256.hexdigest. split.
      * apply hex_inj; apply SHA256Facts.digest_octets.
      * now intros ->.
  - vm_compute. discriminate.
  - vm_compute. discriminate.
Qed.

Lemma order_sensitivity_up_to_collisions_witness :
  let slt := lit "0b30557a9fc4e90e33587da2c7ec1136" in
  let seq1 := [lit "x.png"; lit "y.png"; lit "z.png"; lit "w.png"] in
  let seq2 := [lit "w.png"; lit "z.png"; lit "y.png"; lit "x.png"] in
  let d1 :=
    lit "8b67a8539b1d9849b3392f4e659a494378986a242392e79381a4022c6f667920" in
  let d2 :=
    lit "4e6b4533ad3dc9a163b1b3e2b3ebae9b138a75fb82067018c4a38d173a07f620" in
  Permutation seq1 seq2 /\ seq1 <> seq2 /\
  hash_image_sequence (join_comma seq1) slt = Some d1 /\
  hash_image_sequence (join_comma seq2) slt = Some d2 /\
  join_comma seq1 <> join_comma seq2 /\
  exists m1 m2,
    encode (join_comma seq1 ++ slt) = Some m1 /\
    encode (join_comma seq2 ++ slt) = Some m2 /\
    m1 <> m2 /\
    (d1 = d2 <-> SHA256.digest m1 = SHA256.digest m2).
Proof.
  intros slt seq1 seq2 d1 d2.
  assert (F1 : Forall comma_free seq1).
  { repeat constructor; unfold comma_free; vm_compute; intuition discriminate. }
  assert (F2 : Forall comma_free seq2).
  { repeat constructor; unfold comma_free; vm_compute; intuition discriminate. }
  assert (Hp : Permutation seq1 seq2).
  { change seq2 with (rev seq1). apply Permutation_rev. }
  assert (Hne : seq1 <> seq2) by (vm_compute; discriminate).
  assert (H1 : hash_image_sequence (join_comma seq1) slt = Some d1).
  { vm_compute. reflexivity. }
  assert (H2 : hash_image_sequence (join_comma seq2) slt = Some d2).
  { vm_compute. reflexivity. }
  split; [exact Hp|]. split; [exact Hne|]. split; [exact H1|].
  split; [exact H2|].
  exact (proj1 order_sensitivity_up_to_collisions slt seq1 seq2 d1 d2
           F1 F2 Hp Hne H1 H2).
Defined.

End Spec.

(* ================================================================== *)
(** ** Further properties of the code *)
(* ================================================================== *)

Module Further.
Import Py PyFacts Django Views Steps Bits Statements Coverage ViewFacts.

(** *** hash_image_sequence *)

(** X1. [hash_image_sequence] answers with a digest of 64 lowercase
    hexadecimal characters exactly when neither string holds a lone
    surrogate or a value that is no code point; otherwise [encode()] raises
    UnicodeEncodeError, and so does the call. *)
Theorem hash_image_sequence_domain (sequence slt : str) :
  (forallb scalar (sequence ++ slt) = true ->
   exists d, hash_image_sequence sequence slt = Some d /\
             length d = 64%nat /\ forallb is_lower_hex d = true) /\
  (forallb scalar (sequence ++ slt) = false ->
   hash_image_sequence sequence slt = None /\
   forall w, hash_image_sequence_M sequence slt w = Raise UnicodeEncodeError w).
Proof.
  split.
  - intros H. apply encode_scalar in H. destruct H as [b Hb].
    assert (E : hash_image_sequence sequence slt = Some (SHA256.hexdigest b)).
    { unfold hash_image_sequence. now rewrite Hb. }
    exists (SHA256.hexdigest b). split; [exact E|].
    now apply hash_image_sequence_digest in E.
  - intros H.
    assert (E : hash_image_sequence sequence slt = None).
    { unfold hash_image_sequence.
      destruct (encode (sequence ++ slt)) as [b|] eqn:Hb; [|reflexivity].
      assert (Hs : forallb scalar (sequence ++ slt) = true)
        by (apply encode_scalar; eauto).
      congruence. }
    split; [exact E|]. intros w. unfold hash_image_sequence_M. now rewrite E.
Qed.

Lemma hash_image_sequence_domain_witness :
  (forallb scalar (lit "a,b,c,d" ++ lit "00ff") = true /\
   exists d, hash_image_sequence (lit "a,b,c,d") (lit "00ff") = Some d /\
             length d = 64%nat /\ forallb is_lower_hex d = true) /\
  (forallb scalar ([97; 55296] ++ lit "00ff") = false /\
   hash_image_sequence [97; 55296] (lit "00ff") = None).
Proof.
  split.
  - split; [reflexivity|].
    apply (proj1 (hash_image_sequence_domain (lit "a,b,c,d") (lit "00ff"))).
    reflexivity.
  - split; [reflexivity|].
    apply (proj2 (hash_image_sequence_domain [97; 55296] (lit "00ff"))).
    reflexivity.
Defined.

(** X2. The salt is appended with nothing in between, so the digest only
    depends on the concatenation: characters moved from the end of the
    sequence to the front of the salt leave it unchanged. For two salts of
    the same length, as all stored salts are, an equal digest means the same
    sequence and the same salt, or two different octet strings on which
    SHA-256 collides. *)
Theorem salt_is_appended_bare :
  (forall s t u : str,
      hash_image_sequence (s ++ t) u = hash_image_sequence s (t ++ u)) /\
  (forall (s1 s2 t1 t2 d : str),
      length t1 = length t2 ->
      hash_image_sequence s1 t1 = Some d ->
      hash_image_sequence s2 t2 = Some d ->
      (s1 = s2 /\ t1 = t2)
      \/ exists m1 m2,
           encode (s1 ++ t1) = Some m1 /\ encode (s2 ++ t2) = Some m2 /\
           m1 <> m2 /\ SHA256.digest m1 = SHA256.digest m2).
Proof.
  split.
  - intros s t u. unfold hash_image_sequence. now rewrite app_assoc.
  - intros s1 s2 t1 t2 d Hl H1 H2. unfold hash_image_sequence in H1, H2.
    destruct (encode (s1 ++ t1)) as [m1|] eqn:E1; [|discriminate].
    destruct (encode (s2 ++ t2)) as [m2|] eqn:E2; [|discriminate].
    injection H1 as H1. injection H2 as H2.
    destruct (list_eq_dec Z.eq_dec m1 m2) as [->|Hne].
    + left. pose proof (encode_inj _ _ _ E1 E2) as E.
      assert (Hrev : rev t1 ++ rev s1 = rev t2 ++ rev s2).
      { rewrite <- !rev_app_distr. now rewrite E. }
      apply DigestBits.app_eq_same_length in Hrev;
        [|now rewrite !length_rev].
      destruct Hrev as [Ht Hs].
      apply (f_equal (@rev Z)) in Ht, Hs. rewrite !rev_involutive in Ht, Hs.
      auto.
    + right. exists m1, m2. repeat split; try assumption.
      apply hex_inj; try apply SHA256Facts.digest_octets.
      unfold SHA256.hexdigest in H1, H2. congruence.
Qed.

Lemma salt_is_appended_bare_witness :
  let d :=
    lit "9e4d7263f1ad453c954cf73ac0465852468164a4cd02bfb103c81616431cffbf" in
  length (lit "00ff") = length (lit "00ff") /\
  hash_image_sequence (lit "a,b,c,d") (lit "00ff") = Some d /\
  ((lit "a,b,c,d" = lit "a,b,c,d" /\ lit "00ff" = lit "00ff")
   \/ exists m1 m2,
        encode (lit "a,b,c,d" ++ lit "00ff") = Some m1 /\
        encode (lit "a,b,c,d" ++ lit "00ff") = Some m2 /\
        m1 <> m2 /\ SHA256.digest m1 = SHA256.digest m2).
Proof.
  intros d.
  assert (H : hash_image_sequence (lit "a,b,c,d") (lit "00ff") = Some d).
  { vm_compute. reflexivity. }
  split; [reflexivity|]. split; [exact H|].
  exact (proj2 salt_is_appended_bare _ _ _ _ d eq_refl H H).
Defined.

(** *** Forms that are incomplete or slip through the checks *)

(** X3. A POST that lacks one of the text fields raises
    MultiValueDictKeyError for the first field the view reads and does not
    find (username, email, password for [register]; username, password for
    [login]) and leaves the world as it was. A POST that only lacks the
    graphical password raises nothing: it is turned away as a missing
    graphical password. *)
Theorem missing_form_field
  (fw : Framework) (request : HttpRequest) (key : str) (w : World) :
  method request = lit "POST" ->
  (first_missing request [lit "username"; lit "email"; lit "password"] key ->
   register request w = Raise (MultiValueDictKeyError key) w) /\
  (first_missing request [lit "username"; lit "password"] key ->
   login request w = Raise (MultiValueDictKeyError key) w) /\
  (forall u p,
      posted request [(lit "username", u); (lit "password", p)] ->
      lookup (lit "graphical_password") (POST request) = None ->
      login request w
      = rejected (lit "login") MissingGraphicalPassword_login w) /\
  (forall u e p,
      posted request
        [(lit "username", u); (lit "email", e); (lit "password", p)] ->
      validate_email e = true ->
      lookup (lit "graphical_password") (POST request) = None ->
      register request w
      = rejected (lit "register") MissingGraphicalPassword_register w).
Proof.
  intros Hm. split; [|split; [|split]].
  - cbn [first_missing]. unfold register, bind, POST_getitem. rewrite Hm.
    change (str_eqb (lit "POST") (lit "POST")) with true. cbv iota.
    destruct (lookup (lit "username") (POST request)); [|now intros ->].
    destruct (lookup (lit "email") (POST request)); [|now intros ->].
    destruct (lookup (lit "password") (POST request)); [|now intros ->].
    intros [].
  - cbn [first_missing]. unfold login, bind, POST_getitem. rewrite Hm.
    change (str_eqb (lit "POST") (lit "POST")) with true. cbv iota.
    destruct (lookup (lit "username") (POST request)); [|now intros ->].
    destruct (lookup (lit "password") (POST request)); [|now intros ->].
    intros [].
  - intros u p Hp Hg. rewrite (login_is_login_post request u p w Hp).
    unfold POST_get. rewrite Hg. apply login_post_missing.
  - intros u e p Hp Hv Hg. rewrite (register_is_register_post request u e p w Hp).
    unfold POST_get. rewrite Hg. unfold register_post. rewrite Hv.
    apply reject_register.
Qed.

Lemma missing_form_field_witness :
  let request :=
    Sample.post [(lit "username", lit "alice"); (lit "password", lit "pw")] in
  method request = lit "POST" /\
  first_missing request [lit "username"; lit "email"; lit "password"]
                (lit "email") /\
  @register Sample.framework request Sample.empty_world
    = Raise (MultiValueDictKeyError (lit "email")) Sample.empty_world /\
  @login Sample.framework request Sample.empty_world
    = rejected (lit "login") MissingGraphicalPassword_login Sample.empty_world.
Proof.
  intros request.
  pose proof (missing_form_field Sample.framework request (lit "email")
                Sample.empty_world eq_refl) as (Hr & _ & Hl & _).
  split; [reflexivity|]. split; [reflexivity|]. split.
  - apply Hr. reflexivity.
  - apply (Hl (lit "alice") (lit "pw")); [|reflexivity].
    split; [reflexivity | repeat constructor].
Defined.

(** X4. No check of [register] looks at the username itself: a form with an
    empty username that passes the five checks reaches [create_user], which
    raises ValueError; no message is queued and nothing is written. *)
Theorem empty_username_raises
  (fw : Framework) (request : HttpRequest) (e p : str) (w : World) :
  posted request
    [(lit "username", []); (lit "email", e); (lit "password", p)] ->
  checks_pass [] e (POST_get request (lit "graphical_password") (lit "")) w ->
  register request w = Raise ValueError w.
Proof.
  intros Hp Hc. rewrite (register_is_register_post request [] e p w Hp).
  rewrite (register_post_pass _ _ _ _ _ Hc). reflexivity.
Qed.

Lemma empty_username_raises_witness :
  let request :=
    Sample.register_form (lit "") (lit "x@example.com") (lit "pw")
                         alice_sequence in
  posted request [(lit "username", []); (lit "email", lit "x@example.com");
                  (lit "password", lit "pw")] /\
  @checks_pass Sample.framework [] (lit "x@example.com")
    (POST_get request (lit "graphical_password") (lit "")) Sample.empty_world /\
  @register Sample.framework request Sample.empty_world
    = Raise ValueError Sample.empty_world.
Proof.
  intros request.
  assert (Hp : posted request
                 [(lit "username", []); (lit "email", lit "x@example.com");
                  (lit "password", lit "pw")]).
  { split; [reflexivity | repeat constructor]. }
  assert (Hc : @checks_pass Sample.framework [] (lit "x@example.com")
                 (POST_get request (lit "graphical_password") (lit ""))
                 Sample.empty_world).
  { repeat split; try reflexivity; try discriminate; vm_compute; lia. }
  split; [exact Hp|]. split; [exact Hc|].
  exact (empty_username_raises Sample.framework request _ _ _ Hp Hc).
Defined.

(** X5. The duplicate check of [register] compares the username as
    submitted, while [create_user] stores it in normal form. A username that
    passes the five checks but whose normal form is already registered
    makes the insertion raise (IntegrityError when the store executes the
    write): the request ends in an exception, not in the duplicate-username
    rejection, and nothing is written and no message queued. *)
Theorem normal_form_taken_raises
  (fw : Framework) (request : HttpRequest) (u e p : str) (w : World) :
  posted request
    [(lit "username", u); (lit "email", e); (lit "password", p)] ->
  checks_pass u e (POST_get request (lit "graphical_password") (lit "")) w ->
  u <> [] ->
  existsb (fun x => str_eqb (username x) (normalize_username u)) (users w)
    = true ->
  exists ex w',
    register request w = Raise ex w' /\
    (ex = if hd false (db_faults w) then DatabaseError else IntegrityError) /\
    same_tables w w' /\ messages w' = messages w /\ session w' = session w.
Proof.
  intros Hp Hc Hu Ht. rewrite (register_is_register_post request u e p w Hp).
  rewrite (register_post_pass _ _ _ _ _ Hc).
  destruct u as [|c u]; [congruence|].
  unfold register_create, create_user, bind, db_write, User_username_exists,
    gets, raise. cbn [truthy negb].
  destruct (hd false (db_faults w)).
  - eexists _, _. split; [reflexivity|]. repeat split.
  - cbn [users set_db_faults]. rewrite Ht.
    eexists _, _. split; [reflexivity|]. repeat split.
Qed.

Lemma normal_form_taken_raises_witness :
  let request :=
    Sample.register_form [64257] (lit "other@example.com") (lit "pw")
                         alice_sequence in
  posted request [(lit "username", [64257]);
                  (lit "email", lit "other@example.com");
                  (lit "password", lit "pw")] /\
  @checks_pass Sample.framework [64257] (lit "other@example.com")
    (POST_get request (lit "graphical_password") (lit "")) ligature_world /\
  exists ex w',
    @register Sample.framework request ligature_world = Raise ex w' /\
    ex = IntegrityError /\
    same_tables ligature_world w' /\
    messages w' = messages ligature_world /\
    session w' = session ligature_world.
Proof.
  intros request.
  assert (Hp : posted request
                 [(lit "username", [64257]);
                  (lit "email", lit "other@example.com");
                  (lit "password", lit "pw")]).
  { split; [reflexivity | repeat constructor]. }
  assert (Hc : @checks_pass Sample.framework [64257] (lit "other@example.com")
                 (POST_get request (lit "graphical_password") (lit ""))
                 ligature_world).
  { repeat split; try reflexivity; try discriminate; vm_compute; lia. }
  split; [exact Hp|]. split; [exact Hc|].
  refine (normal_form_taken_raises Sample.framework request _ _ _
            ligature_world Hp Hc _ _).
  - discriminate.
  - vm_compute. reflexivity.
Defined.

(** *** Once registered, a username or an e-mail address stays taken *)

Lemma evolves_usernames w w' (name : str) :
  evolves w w' ->
  In name (map username (users w)) -> In name (map username (users w')).
Proof.
  intros Hev Hin.
  destruct Hev as [(Eu & _)|x now Eu _ _|nu Eu _ _ _ _|nu c Eu _ _ _ _ _];
    rewrite Eu.
  - exact Hin.
  - now rewrite touched_usernames.
  - rewrite map_app. apply in_or_app. now left.
  - rewrite map_app. apply in_or_app. now left.
Qed.

Lemma touched_emails user now us :
  map email (touched user now us) = map email us.
Proof.
  unfold touched. rewrite map_map. apply map_ext. intros x.
  destruct (user_id x =? user_id user); reflexivity.
Qed.

Lemma evolves_emails w w' (mail : str) :
  evolves w w' ->
  In mail (map email (users w)) -> In mail (map email (users w')).
Proof.
  intros Hev Hin.
  destruct Hev as [(Eu & _)|x now Eu _ _|nu Eu _ _ _ _|nu c Eu _ _ _ _ _];
    rewrite Eu.
  - exact Hin.
  - now rewrite touched_emails.
  - rewrite map_app. apply in_or_app. now left.
  - rewrite map_app. apply in_or_app. now left.
Qed.

Lemma serve_keeps (fw : Framework) (key : User -> str)
  (Hkey : forall w w' k, evolves w w' ->
                         In k (map key (users w)) -> In k (map key (users w')))
  atomic trace w k :
  consistent w -> In k (map key (users w)) ->
  In k (map key (users (serve atomic trace w))).
Proof.
  revert w. induction trace as [|[r request] trace IH]; intros w Hc Hin.
  - exact Hin.
  - cbn [serve]. pose proof (handle_evolves atomic r request w Hc) as Hev.
    apply IH.
    + eapply evolves_consistent; eassumption.
    + eapply Hkey; eassumption.
Qed.

Lemma in_map_existsb (key : User -> str) (us : list User) (k : str) :
  In k (map key us) -> existsb (fun x => str_eqb (key x) k) us = true.
Proof.
  intros Hin. apply in_map_iff in Hin. destruct Hin as (x & <- & Hx).
  apply existsb_exists. exists x. split; [exact Hx | apply str_eqb_refl].
Qed.

Lemma length_in_range (n : nat) :
  (4 <= n <= 6)%nat -> (n <? 4)%nat || (6 <? n)%nat = false.
Proof. intros Hn. apply orb_false_iff. split; apply Nat.ltb_ge; lia. Qed.

Lemma register_post_duplicate_username (fw : Framework) u e p g w :
  validate_email e = true -> g <> [] ->
  (4 <= length (split_comma g) <= 6)%nat ->
  existsb (fun x => str_eqb (username x) u) (users w) = true ->
  register_post u e p g w = rejected (lit "register") DuplicateUsername w.
Proof.
  intros Hv Hg Hl Ht. unfold register_post. rewrite Hv.
  destruct g as [|c g']; [congruence|]. cbn [negb truthy].
  rewrite (length_in_range _ Hl).
  unfold bind at 1. unfold User_username_exists at 1. unfold gets at 1.
  rewrite Ht. apply reject_register.
Qed.

Lemma register_post_duplicate_email (fw : Framework) u e p g w :
  validate_email e = true -> g <> [] ->
  (4 <= length (split_comma g) <= 6)%nat ->
  existsb (fun x => str_eqb (username x) u) (users w) = false ->
  existsb (fun x => str_eqb (email x) e) (users w) = true ->
  register_post u e p g w = rejected (lit "register") DuplicateEmail w.
Proof.
  intros Hv Hg Hl Hu Ht. unfold register_post. rewrite Hv.
  destruct g as [|c g']; [congruence|]. cbn [negb truthy].
  rewrite (length_in_range _ Hl).
  unfold bind at 1. unfold User_username_exists at 1. unfold gets at 1.
  rewrite Hu.
  unfold bind at 1. unfold User_email_exists at 1. unfold gets at 1.
  rewrite Ht. apply reject_register.
Qed.

(** X6. A username that is registered stays taken: whatever requests are
    served afterwards, a registration form that submits the username of an
    existing account writes nothing, and when its e-mail address and
    graphical password are in order it is turned away as a duplicate
    username. *)
Theorem username_stays_taken
  (fw : Framework) (ATOMIC_REQUESTS : bool) (account : User)
  (between : list (Route * HttpRequest)) (request : HttpRequest)
  (e p : str) (w : World) :
  consistent w -> In account (users w) ->
  posted request
    [(lit "username", username account); (lit "email", e);
     (lit "password", p)] ->
  let later := serve ATOMIC_REQUESTS between w in
  let g := POST_get request (lit "graphical_password") (lit "") in
  (exists text, register request later = rejected (lit "register") text later)
  /\ same_tables later (world_of (register request later))
  /\ (validate_email e = true -> g <> [] ->
      (4 <= length (split_comma g) <= 6)%nat ->
      register request later
      = rejected (lit "register") DuplicateUsername later).
Proof.
  intros Hc Hin Hp later g.
  assert (Ht : existsb (fun x => str_eqb (username x) (username account))
                       (users later) = true).
  { apply in_map_existsb. apply (serve_keeps fw username); try assumption.
    - intros; eapply evolves_usernames; eassumption.
    - now apply in_map. }
  rewrite (register_is_register_post request _ e p later Hp).
  fold g.
  destruct (register_post_cases (username account) e p g later)
    as [(text & E & _)|[(_ & _ & _ & Hfree & _) _]]; [|congruence].
  split; [now exists text|]. split; [rewrite E; repeat split|].
  intros Hv Hg Hl. now apply register_post_duplicate_username.
Qed.

Lemma username_stays_taken_witness :
  let account := mkUser 1 (lit "alice") (lit "alice@example.com")
                        (lit "plain$pw") true None in
  let between :=
    [ (Rlogin, Sample.login_form (lit "alice") (lit "pw") alice_sequence);
      (Rlogout, mkRequest (lit "GET") [] "/logout") ] in
  let request :=
    Sample.register_form (lit "alice") (lit "second@example.com")
                         (lit "pw456") (lit "a.png,b.png,c.png,d.png") in
  let later := @serve Sample.framework false between alice_world in
  consistent alice_world /\ In account (users alice_world) /\
  @register Sample.framework request later
    = rejected (lit "register") DuplicateUsername later.
Proof.
  intros account between request later.
  assert (Hc : consistent alice_world).
  { apply (evolves_consistent Sample.empty_world).
    - repeat split; constructor.
    - apply (@register_evolves Sample.framework). repeat split; constructor. }
  assert (Hin : In account (users alice_world)).
  { vm_compute. left. reflexivity. }
  split; [exact Hc|]. split; [exact Hin|].
  refine (proj2 (proj2 (username_stays_taken Sample.framework false account
                          between request (lit "second@example.com")
                          (lit "pw456") alice_world Hc Hin _)) _ _ _).
  - split; [reflexivity | repeat constructor].
  - reflexivity.
  - discriminate.
  - vm_compute. lia.
Defined.

(** X7. An e-mail address that is registered stays taken: whatever requests
    are served afterwards, a registration form that submits the address of
    an existing account writes nothing, and when its graphical password is
    in order and its username free it is turned away as a duplicate
    e-mail. *)
Theorem email_stays_taken
  (fw : Framework) (ATOMIC_REQUESTS : bool) (account : User)
  (between : list (Route * HttpRequest)) (request : HttpRequest)
  (u p : str) (w : World) :
  consistent w -> In account (users w) ->
  posted request
    [(lit "username", u); (lit "email", email account); (lit "password", p)] ->
  let later := serve ATOMIC_REQUESTS between w in
  let g := POST_get request (lit "graphical_password") (lit "") in
  (exists text, register request later = rejected (lit "register") text later)
  /\ same_tables later (world_of (register request later))
  /\ (validate_email (email account) = true -> g <> [] ->
      (4 <= length (split_comma g) <= 6)%nat ->
      existsb (fun x => str_eqb (username x) u) (users later) = false ->
      register request later
      = rejected (lit "register") DuplicateEmail later).
Proof.
  intros Hc Hin Hp later g.
  assert (Ht : existsb (fun x => str_eqb (email x) (email account))
                       (users later) = true).
  { apply in_map_existsb. apply (serve_keeps fw email); try assumption.
    - intros; eapply evolves_emails; eassumption.
    - now apply in_map. }
  rewrite (register_is_register_post request _ _ p later Hp).
  fold g.
  destruct (register_post_cases u (email account) p g later)
    as [(text & E & _)|[(_ & _ & _ & _ & Hfree) _]]; [|congruence].
  split; [now exists text|]. split; [rewrite E; repeat split|].
  intros Hv Hg Hl Hu. now apply register_post_duplicate_email.
Qed.

Lemma email_stays_taken_witness :
  let account := mkUser 1 (lit "alice") (lit "alice@example.com")
                        (lit "plain$pw") true None in
  let between :=
    [ (Rlogin, Sample.login_form (lit "alice") (lit "pw") alice_sequence);
      (Rlogout, mkRequest (lit "GET") [] "/logout") ] in
  let request :=
    Sample.register_form (lit "alicia") (lit "alice@example.com")
                         (lit "pw456") (lit "a.png,b.png,c.png,d.png") in
  let later := @serve Sample.framework false between alice_world in
  consistent alice_world /\ In account (users alice_world) /\
  @register Sample.framework request later
    = rejected (lit "register") DuplicateEmail later.
Proof.
  intros account between request later.
  assert (Hc : consistent alice_world).
  { apply (evolves_consistent Sample.empty_world).
    - repeat split; constructor.
    - apply (@register_evolves Sample.framework). repeat split; constructor. }
  assert (Hin : In account (users alice_world)).
  { vm_compute. left. reflexivity. }
  split; [exact Hc|]. split; [exact Hin|].
  refine (proj2 (proj2 (email_stays_taken Sample.framework false account
                          between request (lit "alicia")
                          (lit "pw456") alice_world Hc Hin _)) _ _ _ _).
  - split; [reflexivity | repeat constructor].
  - reflexivity.
  - discriminate.
  - vm_compute. lia.
  - vm_compute. reflexivity.
Defined.

(** *** Sessions *)


Lemma authenticate_In (fw : Framework) u p w user :
  authenticate u p w = Return (Some user) w -> In user (users w).
Proof.
  unfold authenticate, bind, gets, ret, raise.
  destruct (filter _ (users w)) as [|x [|y l]] eqn:E; try discriminate.
  destruct (_ && _); [|discriminate]. intros [= ->].
  assert (H : In user (filter (fun x => str_eqb (username x) u) (users w))).
  { rewrite E. now left. }
  now apply filter_In in H.
Qed.

Lemma authenticate_active (fw : Framework) u p w user :
  authenticate u p w = Return (Some user) w -> is_active user = true.
Proof.
  unfold authenticate, bind, gets, ret, raise.
  destruct (filter _ (users w)) as [|x [|y l]]; try discriminate.
  destruct (check_password p (password x)); [|discriminate].
  destruct (is_active x) eqn:E; [|discriminate]. now intros [= <-].
Qed.


(** Every way a login request can go. *)
Lemma login_outcomes (fw : Framework) request w :
  (world_of (login request w) = w /\
   answer (login request w) <> inl (HttpResponseRedirect (lit "/")))
  \/ (exists text, login request w = rejected (lit "login") text w)
  \/ (login request w
      = Raise DatabaseError (set_db_faults (tl (db_faults w)) w))
  \/ (exists user u,
        In user (users w) /\ is_active user = true /\
        login request w
        = Return (HttpResponseRedirect (lit "/")) (logged_in user u w)).
Proof.
  destruct (login_request_cases request w) as [[Hw Hr]|(u & p & Hp)].
  { left. split; [exact Hw|].
    destruct (login request w) as [resp w'|e w']; cbn; [|discriminate].
    intros [= ->]. now apply (Hr (lit "/") w'). }
  rewrite (login_is_login_post _ u p w Hp).
  destruct (login_post_cases u p
              (POST_get request (lit "graphical_password") (lit "")) w)
    as [(text & E)|[(e & E)|(user & gp & _ & Ha & _ & _ & E)]]; rewrite E.
  - right. left. now exists text.
  - left. split; [reflexivity | discriminate].
  - destruct (hd false (db_faults w)).
    + right. right. now left.
    + right. right. right. exists user, u.
      split; [now apply authenticate_In in Ha|].
      split; [now apply authenticate_active in Ha | reflexivity].
Qed.


Lemma touched_account_identity user now us :
  map account_identity (touched user now us) = map account_identity us.
Proof.
  unfold touched. rewrite map_map. apply map_ext. intros x.
  destruct (user_id x =? user_id user); reflexivity.
Qed.

(** X9. A login request never creates or removes an account and never
    changes who an account is: whether it is granted, turned away or
    raises, the rows of the user table keep their key, username, e-mail
    address and active flag, in the same order. *)
Theorem login_keeps_accounts
  (fw : Framework) (request : HttpRequest) (w : World) :
  map account_identity (users (world_of (login request w)))
  = map account_identity (users w).
Proof.
  destruct (login_outcomes fw request w)
    as [[Hw _]|[(text & E)|[E|(user & u & Hin & _ & E)]]].
  - now rewrite Hw.
  - now rewrite E.
  - now rewrite E.
  - rewrite E. cbn [world_of]. apply touched_account_identity.
Qed.

Lemma touched_active user now us :
  In user us -> is_active user = true ->
  existsb (fun u => (user_id u =? user_id user) && is_active u)
          (touched user now us) = true.
Proof.
  intros Hin Ha. apply existsb_exists.
  exists (mkUser (user_id user) (username user) (email user)
                 (password user) (is_active user) (Some now)).
  split.
  - unfold touched. apply in_map_iff. exists user.
    now rewrite Z.eqb_refl.
  - cbn [user_id is_active]. now rewrite Z.eqb_refl, Ha.
Qed.

(** X11. Login and logout compose: the world a granted login ends in has a
    logged-in user; a logout in that world, whatever the request, empties
    the session and redirects to the home page, both tables untouched; a
    second logout finds nobody logged in, changes nothing and is sent to
    the login page, with the full path of its own request to come back
    to. *)
Theorem login_then_logout
  (fw : Framework) (submission request request' : HttpRequest)
  (w w1 : World) :
  login submission w = Return (HttpResponseRedirect (lit "/")) w1 ->
  is_authenticated w1 = true /\
  exists w2,
    logout request w1 = Return (HttpResponseRedirect (lit "/")) w2 /\
    session w2 = None /\ users w2 = users w1 /\
    graphical_passwords w2 = graphical_passwords w1 /\
    is_authenticated w2 = false /\
    logout request' w2
    = Return (HttpResponseRedirect
                (lit "/login?next=" ++ quote (full_path request'))) w2 /\
    resolve (lit "/login?next=" ++ quote (full_path request')) = Some Rlogin.
Proof.
  intros E.
  assert (Ha : is_authenticated w1 = true).
  { destruct (login_outcomes fw submission w)
      as [[_ Hn]|[(text & E')|[E'|(user & u & Hin & Hact & E')]]].
    - rewrite E in Hn. now contradiction Hn.
    - rewrite E in E'. discriminate E'.
    - rewrite E in E'. discriminate E'.
    - rewrite E in E'. injection E' as ->.
      unfold is_authenticated.
      cbn [logged_in session users set_messages set_session set_users].
      now apply touched_active. }
  split; [exact Ha|].
  unfold logout at 1. unfold bind at 1. unfold gets at 1. rewrite Ha.
  eexists. split; [reflexivity|].
  split; [reflexivity|]. split; [reflexivity|]. split; [reflexivity|].
  split; [reflexivity|]. split; reflexivity.
Qed.

Lemma login_then_logout_witness :
  let submission := Sample.login_form (lit "alice") (lit "pw") alice_sequence in
  let w1 := world_of (@login Sample.framework submission alice_world) in
  let again := mkRequest (lit "GET") [] "/logout?x=1" in
  @login Sample.framework submission alice_world
    = Return (HttpResponseRedirect (lit "/")) w1 /\
  is_authenticated w1 = true /\
  exists w2,
    @logout (mkRequest (lit "GET") [] "/logout") w1
      = Return (HttpResponseRedirect (lit "/")) w2 /\
    session w2 = None /\ users w2 = users w1 /\
    graphical_passwords w2 = graphical_passwords w1 /\
    is_authenticated w2 = false /\
    @logout again w2
    = Return (HttpResponseRedirect
                (lit "/login?next=" ++ quote (full_path again))) w2 /\
    resolve (lit "/login?next=" ++ quote (full_path again)) = Some Rlogin.
Proof.
  intros submission w1 again.
  assert (E : @login Sample.framework submission alice_world
              = Return (HttpResponseRedirect (lit "/")) w1).
  { vm_compute. reflexivity. }
  split; [exact E|].
  exact (login_then_logout Sample.framework submission _ again alice_world
           w1 E).
Defined.

(** The escaping of the path a logout without a session is sent back
    with. *)
Example quote_query_string :
  quote "/logout?x=1" = lit "/logout%3Fx%3D1" /\
  quote "/logout" = lit "/logout".
Proof. split; reflexivity. Qed.

(** A session bound to an account that is no longer active counts as
    anonymous: the logout is sent to the login page and the session stays
    as it is. *)
Example logout_inactive_account :
  let w := set_session (Some 1)
             (set_users [mkUser 1 (lit "dave") (lit "dave@example.com")
                                (lit "plain$pw") false None] bare_world) in
  @logout (mkRequest (lit "GET") [] "/logout") w
  = Return (HttpResponseRedirect (lit "/login?next=/logout")) w.
Proof. reflexivity. Qed.

(** *** Exceptions, messages and randomness *)

Ltac case_tests :=
  repeat match goal with
         | H : context [if ?c then _ else _] |- _ => destruct c eqn:?
         | H : context [match ?x with _ => _ end] |- _ => destruct x eqn:?
         end.

(** What a registration that raises leaves behind, besides the tables. *)
Lemma register_create_Raise_frame (fw : Framework) u e p g w ex w' :
  register_create u e p g w = Raise ex w' ->
  (ex = ValueError \/ ex = DatabaseError \/ ex = IntegrityError \/
   ex = UnicodeEncodeError) /\
  messages w' = messages w /\ entropy w' = entropy w /\
  (entropy_pos w' = entropy_pos w \/
   entropy_pos w' = (entropy_pos w + 16)%nat).
Proof.
  destruct w as [us gs nu ng se ms en ep fa cl].
  unfold register_create. rewrite redirect_login.
  unfold create_user, User_save, token_hex, token_bytes,
    hash_image_sequence_M, GraphicalPassword_create, User_username_exists,
    db_write, messages_success, messages_add, bind, gets, modify, ret, raise.
  cbv beta. intros H. case_tests; try discriminate;
  repeat match goal with
         | H : Return _ _ = Return _ _ |- _ => inversion H; subst; clear H
         | H : Raise _ _ = Raise _ _ |- _ => inversion H; subst; clear H
         end;
  cbn [messages entropy entropy_pos set_users set_graphical_passwords
       set_next_user_id set_next_gp_id set_session set_messages
       set_entropy_pos set_db_faults]; auto 10.
Qed.


(** Selecting by a key without repetition returns at most one row. *)
Lemma filter_at_most_one {A} (f : A -> bool) (key : A -> Z) (k : Z)
  (l : list A) :
  (forall x, f x = (key x =? k)) -> NoDup (map key l) ->
  filter f l = [] \/ exists x, filter f l = [x].
Proof.
  intros Hf. induction l as [|y l IH]; [now left|].
  cbn [map filter]. intros Hnd. inversion Hnd as [|? ? Hy Hl]; subst.
  destruct (f y) eqn:E.
  - right. exists y. f_equal. apply filter_none.
    intros z Hz. rewrite Hf in *. apply Z.eqb_eq in E. apply Z.eqb_neq.
    intros E'. apply Hy. rewrite E, <- E'. now apply in_map.
  - now apply IH.
Qed.






(** *** Redirects and messages *)

(** A form submitted by POST either lacks a text field, and the view raises,
    or holds them all. *)
Lemma register_fields (fw : Framework) request w :
  method request = lit "POST" ->
  (exists key, register request w = Raise (MultiValueDictKeyError key) w)
  \/ exists u e p,
       posted request
         [(lit "username", u); (lit "email", e); (lit "password", p)].
Proof.
  intros Hm.
  destruct (lookup (lit "username") (POST request)) as [u|] eqn:Hu.
  2:{ left. eexists. unfold register, bind, POST_getitem.
      rewrite Hm, Hu. reflexivity. }
  destruct (lookup (lit "email") (POST request)) as [e|] eqn:He.
  2:{ left. eexists. unfold register, bind, POST_getitem.
      rewrite Hm, Hu, He. reflexivity. }
  destruct (lookup (lit "password") (POST request)) as [p|] eqn:Hp.
  2:{ left. eexists. unfold register, bind, POST_getitem.
      rewrite Hm, Hu, He, Hp. reflexivity. }
  right. exists u, e, p. split; [assumption | repeat constructor; assumption].
Qed.

Lemma login_fields (fw : Framework) request w :
  method request = lit "POST" ->
  (exists key, login request w = Raise (MultiValueDictKeyError key) w)
  \/ exists u p, posted request [(lit "username", u); (lit "password", p)].
Proof.
  intros Hm.
  destruct (lookup (lit "username") (POST request)) as [u|] eqn:Hu.
  2:{ left. eexists. unfold login, bind, POST_getitem.
      rewrite Hm, Hu. reflexivity. }
  destruct (lookup (lit "password") (POST request)) as [p|] eqn:Hp.
  2:{ left. eexists. unfold login, bind, POST_getitem.
      rewrite Hm, Hu, Hp. reflexivity. }
  right. exists u, p. split; [assumption | repeat constructor; assumption].
Qed.

(** X13. Every form submission that returns is reported with exactly one
    message, and the message level goes with the redirect: an error message
    with a redirect back to the form, a success message with a redirect
    onward ([register] to the login page, [login] to the front page). *)
Theorem form_submission_reported
  (fw : Framework) (request : HttpRequest) (w w' : World)
  (resp : HttpResponse) :
  method request = lit "POST" ->
  (register request w = Return resp w' ->
   reported (lit "register") (lit "/login") w w' resp) /\
  (login request w = Return resp w' ->
   reported (lit "login") (lit "/") w w' resp).
Proof.
  intros Hm. split; intros E.
  - destruct (register_fields fw request w Hm) as [(key & Hk)|(u & e & p & Hp)];
      [congruence|].
    rewrite (register_is_register_post request u e p w Hp) in E.
    destruct (register_post_cases u e p
                (POST_get request (lit "graphical_password") (lit "")) w)
      as [(text & Er & _)|[_ Er]]; rewrite Er in E.
    + injection E as <- <-. left. split; [reflexivity|]. now exists text.
    + apply register_create_Return in E.
      destruct E as (h & _ & -> & _ & _ & _ & _ & _ & _ & _ & _ & _ & _ & _
                     & _ & Hmsg).
      right. split; [reflexivity|]. eexists. exact Hmsg.
  - destruct (login_fields fw request w Hm) as [(key & Hk)|(u & p & Hp)];
      [congruence|].
    rewrite (login_is_login_post request u p w Hp) in E.
    destruct (login_post_cases u p
                (POST_get request (lit "graphical_password") (lit "")) w)
      as [(text & Er)|[(e0 & Er)|(user & gp & _ & _ & _ & _ & Er)]];
      rewrite Er in E.
    + injection E as <- <-. left. split; [reflexivity|]. now exists text.
    + discriminate E.
    + destruct (hd false (db_faults w)); [discriminate E|].
      injection E as <- <-. right. split; [reflexivity|].
      eexists. reflexivity.
Qed.

Lemma form_submission_reported_witness :
  let request :=
    Sample.register_form (lit "bob") (lit "bob@example.com") (lit "pw")
                         (lit "a.png,b.png,c.png") in
  let w' := set_messages [(ERROR, InvalidSequenceLength)] Sample.empty_world in
  method request = lit "POST" /\
  @register Sample.framework request Sample.empty_world
    = Return (HttpResponseRedirect (lit "/register")) w' /\
  reported (lit "register") (lit "/login") Sample.empty_world w'
           (HttpResponseRedirect (lit "/register")).
Proof.
  intros request w'.
  assert (E : @register Sample.framework request Sample.empty_world
              = Return (HttpResponseRedirect (lit "/register")) w')
    by (vm_compute; reflexivity).
  split; [reflexivity|]. split; [exact E|].
  exact (proj1 (form_submission_reported Sample.framework request
                  Sample.empty_world w' _ eq_refl) E).
Defined.

(** X14. Every redirect of the views goes to a page of this site, and the
    request does not choose which: [register] redirects to its own form or
    to the login page, [login] to its own form or to the front page,
    [logout] to the front page or, without a session, to the login page,
    where the full path of the request only appears, escaped, as the
    parameter [next]. Each of these URLs resolves to a route of urls.py;
    [index], [about] and [team] never redirect. *)
Theorem redirects_resolve
  (fw : Framework) (r : Route) (request : HttpRequest) (w w' : World)
  (url : str) :
  view r request w = Return (HttpResponseRedirect url) w' ->
  ((r = Rregister /\ (url = lit "/register" \/ url = lit "/login"))
   \/ (r = Rlogin /\ (url = lit "/login" \/ url = lit "/"))
   \/ (r = Rlogout /\
       (url = lit "/" \/
        url = lit "/login?next=" ++ quote (full_path request))))
  /\ (resolve url = Some Rregister \/ resolve url = Some Rlogin \/
      resolve url = Some Rindex).
Proof.
  intros E.
  assert (H : (r = Rregister /\ (url = lit "/register" \/ url = lit "/login"))
              \/ (r = Rlogin /\ (url = lit "/login" \/ url = lit "/"))
              \/ (r = Rlogout /\
                  (url = lit "/" \/
                   url = lit "/login?next=" ++ quote (full_path request)))).
  { destruct r; cbn [view] in E; try discriminate E.
    - left. split; [reflexivity|].
      destruct (register_request_cases request w)
        as [[_ Hn]|(u & e & p & Hp)]; [now apply Hn in E|].
      rewrite (register_is_register_post request u e p w Hp) in E.
      destruct (register_post_cases u e p
                  (POST_get request (lit "graphical_password") (lit "")) w)
        as [(text & Er & _)|[_ Er]]; rewrite Er in E.
      + injection E as <- _. now left.
      + apply register_create_Return in E.
        destruct E as (h & _ & Hr & _). injection Hr as ->. now right.
    - right. left. split; [reflexivity|].
      destruct (login_request_cases request w)
        as [[_ Hn]|(u & p & Hp)]; [now apply Hn in E|].
      rewrite (login_is_login_post request u p w Hp) in E.
      destruct (login_post_cases u p
                  (POST_get request (lit "graphical_password") (lit "")) w)
        as [(text & Er)|[(e0 & Er)|(user & gp & _ & _ & _ & _ & Er)]];
        rewrite Er in E.
      + injection E as <- _. now left.
      + discriminate E.
      + destruct (hd false (db_faults w)); [discriminate E|].
        injection E as <- _. now right.
    - right. right. split; [reflexivity|]. revert E.
      unfold logout, bind, gets. destruct (is_authenticated w).
      + change (redirect (lit "/"))
          with (ret (HttpResponseRedirect (lit "/"))).
        intros E. injection E as <- _. now left.
      + intros E. injection E as <- _. now right. }
  split; [exact H|].
  destruct H as [(_ & [ -> | -> ])|[(_ & [ -> | -> ])|(_ & [ -> | -> ])]];
    vm_compute; tauto.
Qed.

Lemma redirects_resolve_witness :
  let w := set_session (Some 7) Sample.empty_world in
  let request := mkRequest (lit "GET") [] "/logout?x=1" in
  @view Sample.framework Rlogout request w
    = Return (HttpResponseRedirect (lit "/login?next=/logout%3Fx%3D1")) w /\
  resolve (lit "/login?next=/logout%3Fx%3D1") = Some Rlogin.
Proof.
  intros w request.
  assert (E : @view Sample.framework Rlogout request w
              = Return (HttpResponseRedirect
                          (lit "/login?next=/logout%3Fx%3D1")) w)
    by reflexivity.
  split; [exact E|].
  destruct (redirects_resolve Sample.framework Rlogout request w w _ E)
    as (_ & [H|[H|H]]); try exact H; vm_compute in H; discriminate H.
Defined.

(** *** The store over a sequence of requests *)

Lemma evolves_account_identity w w' :
  evolves w w' ->
  exists rest,
    map account_identity (users w')
    = map account_identity (users w) ++ rest.
Proof.
  intros [(Hu & _)|user now Hu _ _|nu Hu _ _ _ _|nu cred Hu _ _ _ _ _];
    rewrite Hu.
  - exists []. now rewrite app_nil_r.
  - exists []. now rewrite touched_account_identity, app_nil_r.
  - exists [account_identity nu]. now rewrite map_app.
  - exists [account_identity nu]. now rewrite map_app.
Qed.

(** X15. The constraints of the store (unique usernames, unique keys below
    the counter, at most one credential per user, an existing owner for
    every credential) hold after any sequence of requests served from a
    store where they hold, and no request removes an account or changes
    who it is: the rows on file keep key, username, e-mail address and
    active flag, and new rows are added behind them. *)
Theorem store_constraints_kept
  (fw : Framework) (ATOMIC_REQUESTS : bool)
  (trace : list (Route * HttpRequest)) (w : World) :
  consistent w ->
  let later := serve ATOMIC_REQUESTS trace w in
  consistent later /\
  exists rest,
    map account_identity (users later)
    = map account_identity (users w) ++ rest.
Proof.
  revert w. induction trace as [|[r request] trace IH]; intros w Hc later.
  - split; [exact Hc|]. exists []. now rewrite app_nil_r.
  - pose proof (handle_evolves ATOMIC_REQUESTS r request w Hc) as Hev.
    pose proof (evolves_consistent _ _ Hc Hev) as Hc'.
    destruct (IH _ Hc') as (Hl & rest & Hr).
    destruct (evolves_account_identity _ _ Hev) as (rest0 & Hr0).
    split; [exact Hl|]. exists (rest0 ++ rest).
    subst later. cbn [serve]. now rewrite Hr, Hr0, app_assoc.
Qed.

Lemma store_constraints_kept_witness :
  let trace :=
    [ (Rregister,
       Sample.register_form (lit "alice") (lit "alice@example.com")
                            (lit "pw") alice_sequence);
      (Rlogin, Sample.login_form (lit "alice") (lit "pw") alice_sequence) ] in
  consistent Sample.empty_world /\
  consistent (@serve Sample.framework false trace Sample.empty_world).
Proof.
  intros trace.
  assert (Hc : consistent Sample.empty_world) by (repeat split; constructor).
  split; [exact Hc|].
  exact (proj1 (store_constraints_kept Sample.framework false trace
                  Sample.empty_world Hc)).
Defined.

(** *** Salts *)

Lemma draw_octets w n : Forall octet (draw w n).
Proof.
  apply Forall_forall. intros x Hx. unfold draw in Hx.
  apply in_map_iff in Hx. destruct Hx as (i & <- & _).
  apply Z.mod_pos_bound. reflexivity.
Qed.

(** No view rewrites the random source, and a view reads 16 octets of it or
    none. *)
Lemma view_entropy (fw : Framework) r request w :
  entropy (world_of (view r request w)) = entropy w /\
  (entropy_pos (world_of (view r request w)) = entropy_pos w \/
   entropy_pos (world_of (view r request w)) = (entropy_pos w + 16)%nat).
Proof.
  destruct r; cbn [view]; try (split; [reflexivity | left; reflexivity]).
  - destruct (register_request_cases request w) as [[Hw _]|(u & e & p & Hp)].
    { rewrite Hw. auto. }
    rewrite (register_is_register_post _ u e p w Hp).
    destruct (register_post_cases u e p
                (POST_get request (lit "graphical_password") (lit "")) w)
      as [(text & Er & _)|[_ Er]]; rewrite Er.
    { split; [reflexivity | left; reflexivity]. }
    destruct (register_create u e p _ w) as [resp w'|ex w'] eqn:E;
      cbn [world_of].
    + apply register_create_Return in E.
      destruct E as (h & _ & _ & _ & _ & _ & _ & _ & _ & _ & _ & He & Hp'
                     & _).
      auto.
    + apply register_create_Raise_frame in E. tauto.
  - destruct (login_request_cases request w) as [[Hw _]|(u & p & Hp)].
    { rewrite Hw. auto. }
    rewrite (login_is_login_post _ u p w Hp).
    destruct (login_post_cases u p
                (POST_get request (lit "graphical_password") (lit "")) w)
      as [(text & Er)|[(e0 & Er)|(user & gp & _ & _ & _ & _ & Er)]];
      rewrite Er; try (split; [reflexivity | left; reflexivity]).
    destruct (hd false (db_faults w));
      (split; [reflexivity | left; reflexivity]).
  - unfold logout, bind, gets.
    destruct (is_authenticated w); (split; [reflexivity | left; reflexivity]).
Qed.

Lemma serve_entropy (fw : Framework) atomic trace w :
  entropy (serve atomic trace w) = entropy w /\
  (entropy_pos w <= entropy_pos (serve atomic trace w))%nat.
Proof.
  revert w. induction trace as [|[r request] trace IH]; intros w.
  - split; [reflexivity | apply Nat.le_refl].
  - cbn [serve]. destruct (IH (world_of (handle atomic r request w)))
      as (He & Hp).
    assert (H : entropy (world_of (handle atomic r request w)) = entropy w /\
                (entropy_pos w
                 <= entropy_pos (world_of (handle atomic r request w)))%nat).
    { pose proof (view_entropy fw r request w) as (Hve & Hvp).
      unfold handle. destruct (view r request w) as [resp w'|ex w'];
        cbn [world_of] in *.
      - split; [exact Hve | lia].
      - destruct atomic; (split; [exact Hve | cbn; lia]). }
    destruct H as (He' & Hp'). split; [congruence | lia].
Qed.

(** What an accepted registration draws and writes. *)
Lemma register_accepted (fw : Framework) request w w' :
  register request w = Return (HttpResponseRedirect (lit "/login")) w' ->
  exists h,
    graphical_passwords w' = graphical_passwords w ++ [new_credential h w] /\
    entropy_pos w' = (entropy_pos w + 16)%nat.
Proof.
  intros E.
  destruct (register_request_cases request w) as [[_ Hn]|(u & e & p & Hp)];
    [now apply Hn in E|].
  rewrite (register_is_register_post _ u e p w Hp) in E.
  destruct (register_post_cases u e p
              (POST_get request (lit "graphical_password") (lit "")) w)
    as [(text & Er & _)|[_ Er]]; rewrite Er in E.
  - injection E as Hurl _. vm_compute in Hurl. discriminate Hurl.
  - apply register_create_Return in E.
    destruct E as (h & _ & _ & _ & _ & _ & _ & Hg & _ & _ & _ & _ & Hp'
                   & _).
    now exists h.
Qed.

(** X16. Every accepted registration salts its credential with 16 octets
    of the random source that no earlier registration has read: of two
    accepted registrations, whatever is served between them, the second
    reads its octets at least 16 positions behind the first, and the two
    salts are equal only if the source repeats itself there. *)
Theorem salts_from_fresh_octets
  (fw : Framework) (ATOMIC_REQUESTS : bool) (request1 request2 : HttpRequest)
  (between : list (Route * HttpRequest)) (w w1 w2 : World) :
  register request1 w = Return (HttpResponseRedirect (lit "/login")) w1 ->
  register request2 (serve ATOMIC_REQUESTS between w1)
    = Return (HttpResponseRedirect (lit "/login")) w2 ->
  exists c1 c2 n,
    graphical_passwords w1 = graphical_passwords w ++ [c1] /\
    graphical_passwords w2
    = graphical_passwords (serve ATOMIC_REQUESTS between w1) ++ [c2] /\
    (entropy_pos w + 16 <= n)%nat /\
    salt c1 = hex (draw w (entropy_pos w)) /\
    salt c2 = hex (draw w n) /\
    (salt c1 = salt c2 <-> draw w (entropy_pos w) = draw w n).
Proof.
  intros E1 E2.
  pose proof (view_entropy fw Rregister request1 w) as (He1 & _).
  cbn [view] in He1. rewrite E1 in He1. cbn [world_of] in He1.
  apply register_accepted in E1. destruct E1 as (h1 & Hg1 & Hp1).
  apply register_accepted in E2. destruct E2 as (h2 & Hg2 & _).
  destruct (serve_entropy fw ATOMIC_REQUESTS between w1) as (He & Hp).
  set (later := serve ATOMIC_REQUESTS between w1) in *.
  assert (Hs : new_salt later = hex (draw w (entropy_pos later))).
  { unfold new_salt, draw. now rewrite He, He1. }
  exists (new_credential h1 w), (new_credential h2 later), (entropy_pos later).
  split; [exact Hg1|]. split; [exact Hg2|]. split; [lia|].
  split; [reflexivity|]. split; [exact Hs|].
  cbn [new_credential salt]. rewrite Hs.
  change (new_salt w) with (hex (draw w (entropy_pos w))).
  split; [|now intros ->].
  apply hex_inj; apply draw_octets.
Qed.

Lemma salts_from_fresh_octets_witness :
  let request1 :=
    Sample.register_form (lit "alice") (lit "alice@example.com")
                         (lit "pw") alice_sequence in
  let request2 :=
    Sample.register_form (lit "bob") (lit "bob@example.com")
                         (lit "pw") alice_sequence in
  let w2 := world_of (@register Sample.framework request2 alice_world) in
  @register Sample.framework request1 Sample.empty_world
    = Return (HttpResponseRedirect (lit "/login")) alice_world /\
  @register Sample.framework request2 alice_world
    = Return (HttpResponseRedirect (lit "/login")) w2 /\
  exists c1 c2 n,
    graphical_passwords alice_world
    = graphical_passwords Sample.empty_world ++ [c1] /\
    graphical_passwords w2
    = graphical_passwords (@serve Sample.framework false [] alice_world)
      ++ [c2] /\
    (entropy_pos Sample.empty_world + 16 <= n)%nat /\
    salt c1 = hex (draw Sample.empty_world (entropy_pos Sample.empty_world)) /\
    salt c2 = hex (draw Sample.empty_world n) /\
    (salt c1 = salt c2 <->
     draw Sample.empty_world (entropy_pos Sample.empty_world)
     = draw Sample.empty_world n).
Proof.
  intros request1 request2 w2.
  assert (E1 : @register Sample.framework request1 Sample.empty_world
               = Return (HttpResponseRedirect (lit "/login")) alice_world)
    by (vm_compute; reflexivity).
  assert (E2 : @register Sample.framework request2 alice_world
               = Return (HttpResponseRedirect (lit "/login")) w2)
    by (vm_compute; reflexivity).
  split; [exact E1|]. split; [exact E2|].
  exact (salts_from_fresh_octets Sample.framework false request1 request2
           [] Sample.empty_world alice_world w2 E1 E2).
Defined.

(** *** The label of a credential row *)

Lemma NoDup_map_In_inj {A B} (f : A -> B) (l : list A) (x y : A) :
  NoDup (map f l) -> In x l -> In y l -> f x = f y -> x = y.
Proof.
  induction l as [|z l IH]; [intros _ []|].
  cbn [map]. intros Hnd Hx Hy E. inversion Hnd as [|? ? Hz Hl]; subst.
  destruct Hx as [->|Hx], Hy as [->|Hy].
  - reflexivity.
  - exfalso. apply Hz. rewrite E. now apply in_map.
  - exfalso. apply Hz. rewrite <- E. now apply in_map.
  - now apply IH.
Qed.

Lemma filter_by_key (us : list User) (owner : User) :
  NoDup (map user_id us) -> In owner us ->
  filter (fun u => user_id u =? user_id owner) us = [owner].
Proof.
  intros Hnd Hin.
  assert (Hf : In owner (filter (fun u => user_id u =? user_id owner) us)).
  { apply filter_In. split; [exact Hin | apply Z.eqb_refl]. }
  destruct (filter_at_most_one (fun u => user_id u =? user_id owner)
              user_id (user_id owner) us (fun _ => eq_refl) Hnd)
    as [E|(x & E)]; rewrite E in *.
  - destruct Hf.
  - destruct Hf as [->|[]]. reflexivity.
Qed.

Lemma credential_owner w g :
  consistent w -> In g (graphical_passwords w) ->
  exists owner,
    In owner (users w) /\ user_id owner = gp_user g /\
    GraphicalPassword_str g w
    = Some (lit "Graphical Password for " ++ username owner).
Proof.
  intros (_ & Hid & _ & _ & Hown) Hin.
  rewrite Forall_forall in Hown. apply Hown in Hin.
  apply in_map_iff in Hin. destruct Hin as (owner & Ho & Hin).
  exists owner. split; [exact Hin|]. split; [exact Ho|].
  unfold GraphicalPassword_str. rewrite <- Ho.
  now rewrite (filter_by_key _ _ Hid Hin).
Qed.

(** X17. [GraphicalPassword.__str__] on a store that meets its constraints:
    the label of every credential row is defined and names the row's owner,
    and no two rows share a label. *)
Theorem credential_labels (w : World) (g : GraphicalPassword) :
  consistent w -> In g (graphical_passwords w) ->
  (exists owner,
     In owner (users w) /\ user_id owner = gp_user g /\
     GraphicalPassword_str g w
     = Some (lit "Graphical Password for " ++ username owner)) /\
  (forall g', In g' (graphical_passwords w) ->
              GraphicalPassword_str g' w = GraphicalPassword_str g w ->
              g' = g).
Proof.
  intros Hc Hin. split; [now apply credential_owner|].
  intros g' Hin' E.
  destruct (credential_owner w g Hc Hin) as (o & Ho & Hk & Hs).
  destruct (credential_owner w g' Hc Hin') as (o' & Ho' & Hk' & Hs').
  rewrite Hs, Hs' in E. injection E as E.
  destruct Hc as (Hname & _ & _ & Hgp & _).
  assert (o' = o) by (eapply NoDup_map_In_inj; eassumption). subst o'.
  eapply NoDup_map_In_inj; try eassumption. congruence.
Qed.

Lemma credential_labels_witness :
  let g := nth 0 (graphical_passwords alice_world)
               (mkGraphicalPassword 0 0 [] [] 0 0) in
  consistent alice_world /\ In g (graphical_passwords alice_world) /\
  exists owner,
    In owner (users alice_world) /\ user_id owner = gp_user g /\
    GraphicalPassword_str g alice_world
    = Some (lit "Graphical Password for " ++ username owner).
Proof.
  intros g.
  assert (Hc : consistent alice_world).
  { apply (evolves_consistent Sample.empty_world).
    - repeat split; constructor.
    - apply (@register_evolves Sample.framework). repeat split; constructor. }
  assert (Hin : In g (graphical_passwords alice_world)).
  { vm_compute. left. reflexivity. }
  split; [exact Hc|]. split; [exact Hin|].
  exact (proj1 (credential_labels alice_world g Hc Hin)).
Defined.

End Further.
